(** * Notakto: rules engine and search opponent

    A shallow embedding of [src/App.tsx] (the game state machine of the
    [App] component) and of [services/ai.ts] (pattern catalog, dead-board
    test, heuristic, move generation, alpha-beta minimax, [findBestMove]),
    followed by the properties of the specification proved about them.

    Conventions of the embedding.
    - A cell is the string [''] or ['X']: the two-constructor type [Cell].
    - A board is a JS array: a [list Cell]; reading past its end yields
      [undefined], here [None] of stdpp's list lookup [!!].
    - Sizes, indices, depths and difficulty levels are natural numbers.
      Scores are integers or one of the two infinities: the type [Num].
    - A React event handler reads the state of the render it was created
      in and queues its updates; one handler call is one transition
      [State -> State] here. *)

From Stdlib Require Import ZArith QArith Qround Lia String.
From stdpp Require Import base option list gmap.

Local Open Scope nat_scope.

(** ** Cells, boards and moves *)

Inductive Cell : Type :=
  | Empty   (* '' *)
  | Marked. (* 'X' *)

#[global] Instance Cell_eq_dec : EqDecision Cell.
Proof. solve_decision. Defined.

Abbreviation BoardState := (list Cell) (only parsing).

Record Move : Type := mkMove { boardIndex : nat; cellIndex : nat }.

#[global] Instance Move_eq_dec : EqDecision Move.
Proof. solve_decision. Defined.

(** [board[i] === 'X']: false for [''] and for [undefined]. *)
Definition isX (board : BoardState) (i : nat) : bool :=
  match board !! i with
  | Some Marked => true
  | _ => false
  end.

(** [c === 'X'] on an element that may be [undefined]. *)
Definition optIsX (c : option Cell) : bool :=
  match c with
  | Some Marked => true
  | _ => false
  end.

(** [c === 'X'] on an element of the array. *)
Definition cellIsX (c : Cell) : bool :=
  match c with
  | Marked => true
  | Empty => false
  end.

(** [Array.from({ length }, (_, i) => f(i))]. *)
Definition arrayFrom {A : Type} (len : nat) (f : nat -> A) : list A :=
  f <$> seq 0 len.

(** [l.slice(start, stop)] for [0 <= start <= stop]. *)
Definition slice {A : Type} (start stop : nat) (l : list A) : list A :=
  take (stop - start) (drop start l).

(** ** Scores: JS numbers that are an integer or an infinity *)

Module Num.

Inductive t : Type :=
  | NegInf
  | Fin (z : Z)
  | PosInf.

#[global] Instance eq_dec : EqDecision t.
Proof. solve_decision. Defined.

(** [a <= b] *)
Definition leb (a b : t) : bool :=
  match a, b with
  | NegInf, _ => true
  | _, PosInf => true
  | Fin x, Fin y => (x <=? y)%Z
  | _, _ => false
  end.

(** [a > b] is [ltb b a]; [a < b] is [ltb a b]. *)
Definition ltb (a b : t) : bool := negb (leb b a).

(** [a === b] *)
Definition eqb (a b : t) : bool := bool_decide (a = b).

(** [Math.max(a, b)] *)
Definition max (a b : t) : t := if leb a b then b else a.

(** [Math.min(a, b)] *)
Definition min (a b : t) : t := if leb a b then a else b.

(** The order of scores as propositions: [le a b] when [a <= b]
    holds, [lt a b] when [b <= a] fails. *)
Definition le (a b : t) : Prop := leb a b = true.
Definition lt (a b : t) : Prop := leb b a = false.

End Num.

(** ** The random source

    [Math.random()] yields a number in the half-open interval from 0 to 1.
    It is a parameter of [findBestMove] here, carried with its range; the
    product and [Math.floor] are computed exactly on the rational. *)

Record Random : Type := mkRandom {
  rval : Q;
  rval_range : (0 <= rval)%Q /\ (rval < 1)%Q
}.

(** [Math.floor(Math.random() * n)] *)
Definition randomIndex (random : Random) (n : nat) : nat :=
  Z.to_nat (Qfloor (rval random * inject_Z (Z.of_nat n))).

(** * services/ai.ts *)

Module Ai.

(** The body of [getWinPatterns] on a cache miss.  The loop pushes the
    row and the column of each [i]; the two diagonals come last.  For
    [size = 0] the factor [size - 1] is never used: the array is empty. *)
Definition getWinPatterns (size : nat) : list (list nat) :=
  let patterns :=
    foldl (fun patterns i =>
             let row := arrayFrom size (fun j => i * size + j) in
             let col := arrayFrom size (fun j => i + j * size) in
             patterns ++ [row; col])
          [] (seq 0 size) in
  let diag1 := arrayFrom size (fun i => i * (size + 1)) in
  let diag2 := arrayFrom size (fun i => (i + 1) * (size - 1)) in
  patterns ++ [diag1; diag2].

(** [getWinPatterns] with the module-level [winPatternsCache] made an
    explicit store: a hit returns the stored catalog, a miss computes
    it and stores it. *)
Definition getWinPatterns_cached
    (winPatternsCache : gmap nat (list (list nat))) (size : nat)
    : list (list nat) * gmap nat (list (list nat)) :=
  match winPatternsCache !! size with
  | Some patterns => (patterns, winPatternsCache)
  | None =>
      let patterns := getWinPatterns size in
      (patterns, <[size := patterns]> winPatternsCache)
  end.

(** A run of calls on the cache, collecting what each call returns. *)
Fixpoint runCached (cache : gmap nat (list (list nat))) (sizes : list nat)
    : list (list (list nat)) * gmap nat (list (list nat)) :=
  match sizes with
  | [] => ([], cache)
  | size :: rest =>
      let '(patterns, cache') := getWinPatterns_cached cache size in
      let '(results, cache'') := runCached cache' rest in
      (patterns :: results, cache'')
  end.

(** Twice the value of [getCellValue]: [center = (size - 1) / 2] may be
    a half, so the model keeps [2 * value], an integer.  [None] is the
    [undefined] that the map returns for an index it does not hold.
    The table cached per size is a function of the size alone, and the
    model computes its entry directly. *)
Definition getCellValue2 (cellIndex boardSize : nat) : option Z :=
  let size := boardSize in
  if cellIndex <? size * size then
    let row := Z.of_nat (cellIndex / size) in
    let col := Z.of_nat (cellIndex mod size) in
    let center2 := (Z.of_nat size - 1)%Z in
    Some (- Z.abs (2 * row - center2) - Z.abs (2 * col - center2))%Z
  else None.

Definition isBoardDead (board : BoardState) (boardSize : nat) : bool :=
  let patterns := getWinPatterns boardSize in
  existsb (fun pattern => forallb (fun i => isX board i) pattern) patterns.

(** The inner counting loop of [heuristic]. *)
Definition countX (board : BoardState) (pattern : list nat) : nat :=
  foldl (fun xCount i => if isX board i then S xCount else xCount) 0 pattern.

(** The loop over the patterns of one board, with its [break]. *)
Fixpoint scanPatterns (board : BoardState) (sizeMinus1 : Z)
    (patterns : list (list nat)) (boardScore : Z) : Z :=
  match patterns with
  | [] => boardScore
  | pattern :: rest =>
      let xCount := Z.of_nat (countX board pattern) in
      if (xCount =? sizeMinus1)%Z then (boardScore - 10)%Z
      else if (xCount =? sizeMinus1 - 1)%Z
           then scanPatterns board sizeMinus1 rest (boardScore - 1)%Z
           else scanPatterns board sizeMinus1 rest boardScore
  end.

Definition heuristic (boards : list BoardState) (boardSize : nat) : Z :=
  let patterns := getWinPatterns boardSize in
  let sizeMinus1 := (Z.of_nat boardSize - 1)%Z in
  foldl (fun score board =>
           if isBoardDead board boardSize then score
           else (score + scanPatterns board sizeMinus1 patterns 0)%Z)
        0%Z boards.

(** The inner loop of [getValidMoves] from [cellIndex] on. *)
Fixpoint emptyCells (boardIndex : nat) (cells : list Cell) (cellIndex : nat)
    : list Move :=
  match cells with
  | [] => []
  | c :: rest =>
      match c with
      | Empty => mkMove boardIndex cellIndex
                   :: emptyCells boardIndex rest (S cellIndex)
      | Marked => emptyCells boardIndex rest (S cellIndex)
      end
  end.

(** The outer loop of [getValidMoves] from [boardIndex] on. *)
Fixpoint candidateMoves (boards : list BoardState) (boardSize : nat)
    (boardIndex : nat) : list Move :=
  match boards with
  | [] => []
  | board :: rest =>
      (if isBoardDead board boardSize then []
       else emptyCells boardIndex board 0)
      ++ candidateMoves rest boardSize (S boardIndex)
  end.

(** The comparator of the sort is [value(b) - value(a)]: [a] stays in
    front of [b] unless the difference is positive.  A difference with
    an [undefined] operand is NaN, which a sort treats as 0. *)
Definition staysBefore (boardSize : nat) (a b : Move) : bool :=
  match getCellValue2 (cellIndex b) boardSize,
        getCellValue2 (cellIndex a) boardSize with
  | Some vb, Some va => (vb - va <=? 0)%Z
  | _, _ => true
  end.

(** [Array.prototype.sort] is stable: insertion from the right. *)
Fixpoint insertMove (boardSize : nat) (a : Move) (sorted : list Move)
    : list Move :=
  match sorted with
  | [] => [a]
  | b :: rest =>
      if staysBefore boardSize a b then a :: b :: rest
      else b :: insertMove boardSize a rest
  end.

Definition sortMoves (boardSize : nat) (moves : list Move) : list Move :=
  foldr (insertMove boardSize) [] moves.

Definition getValidMoves (boards : list BoardState) (boardSize : nat)
    : list Move :=
  sortMoves boardSize (candidateMoves boards boardSize 0).

(** [updateBoards] copies the array of boards and the target board and
    writes ['X'].  Every caller passes a move of [getValidMoves], whose
    indices are in range ([search_in_range] below); outside the range
    the source throws on the spread of [undefined] (board) or grows the
    array (cell), and this model leaves the boards as they are. *)
Definition updateBoards (boards : list BoardState) (move : Move)
    : list BoardState :=
  match boards !! boardIndex move with
  | Some board =>
      <[boardIndex move := <[cellIndex move := Marked]> board]> boards
  | None => boards
  end.

Definition getMaxDepth (boardSize numberOfBoards difficulty : nat) : nat :=
  let complexity := boardSize * numberOfBoards in
  if complexity <=? 9 then Nat.min 5 (difficulty + 2)
  else if complexity <=? 16 then Nat.min 4 (difficulty + 1)
  else Nat.min 3 difficulty.

(** The terminal test at the head of [minimax]. *)
Definition allDead (boards : list BoardState) (boardSize : nat) : bool :=
  forallb (fun board => isBoardDead board boardSize) boards.

(** The loop over the moves in [minimax]; [child move alpha beta] is
    the recursive call on the boards updated with [move]. *)
Fixpoint minimaxLoop (child : Move -> Num.t -> Num.t -> Num.t)
    (isMaximizing : bool) (moves : list Move)
    (bestValue alpha beta : Num.t) : Num.t :=
  match moves with
  | [] => bestValue
  | move :: rest =>
      let value := child move alpha beta in
      let bestValue' :=
        if isMaximizing then Num.max bestValue value
        else Num.min bestValue value in
      let alpha' := if isMaximizing then Num.max alpha value else alpha in
      let beta' := if isMaximizing then beta else Num.min beta value in
      if Num.leb beta' alpha' then bestValue'
      else minimaxLoop child isMaximizing rest bestValue' alpha' beta'
  end.

(** [minimax], by recursion on [depth]: the terminal test, the cutoff
    at depth 0, then the loop over the valid moves. *)
Fixpoint minimax (depth : nat) (boards : list BoardState)
    (isMaximizing : bool) (boardSize : nat) (alpha beta : Num.t) : Num.t :=
  if allDead boards boardSize
  then (if isMaximizing then Num.NegInf else Num.PosInf)
  else
    match depth with
    | 0 => Num.Fin (heuristic boards boardSize)
    | S depth' =>
        let moves := getValidMoves boards boardSize in
        let bestValue := if isMaximizing then Num.NegInf else Num.PosInf in
        minimaxLoop
          (fun move alpha beta =>
             minimax depth' (updateBoards boards move)
                     (negb isMaximizing) boardSize alpha beta)
          isMaximizing moves bestValue alpha beta
    end.

(** The loop of [findBestMove]; [score move] is the minimax value of
    the boards updated with [move]. *)
Fixpoint bestMovesLoop (score : Move -> Num.t) (moves : list Move)
    (bestScore : Num.t) (bestMoves : list Move) : list Move :=
  match moves with
  | [] => bestMoves
  | move :: rest =>
      let moveScore := score move in
      let '(bestScore', bestMoves') :=
        if Num.ltb bestScore moveScore then (moveScore, [move])
        else if Num.eqb moveScore bestScore
             then (bestScore, bestMoves ++ [move])
             else (bestScore, bestMoves) in
      if Num.eqb moveScore Num.PosInf then bestMoves'
      else bestMovesLoop score rest bestScore' bestMoves'
  end.

(** The score [findBestMove] gives a candidate move. *)
Definition moveScore (boards : list BoardState) (maxDepth boardSize : nat)
    (move : Move) : Num.t :=
  let newBoards := updateBoards boards move in
  minimax maxDepth newBoards false boardSize Num.NegInf Num.PosInf.

(** [None] is the [null] of the source. *)
Definition findBestMove (random : Random) (boards : list BoardState)
    (difficulty boardSize numberOfBoards : nat) : option Move :=
  let moves := getValidMoves boards boardSize in
  if length moves =? 0 then None
  else
    let maxDepth := getMaxDepth boardSize numberOfBoards difficulty in
    let bestMoves :=
      bestMovesLoop (moveScore boards maxDepth boardSize)
                    moves Num.NegInf [] in
    bestMoves !! randomIndex random (length bestMoves).

End Ai.

(** * App.tsx: the game state machine *)

Module App.

Inductive Player : Type :=
  | P1  (* 1 *)
  | P2. (* 2 *)

#[global] Instance Player_eq_dec : EqDecision Player.
Proof. solve_decision. Defined.

(** [prev === 1 ? 2 : 1] *)
Definition other (p : Player) : Player :=
  match p with
  | P1 => P2
  | P2 => P1
  end.

Inductive GameMode : Type :=
  | NoMode      (* null *)
  | VsPlayer    (* 'vsPlayer' *)
  | VsComputer. (* 'vsComputer' *)

#[global] Instance GameMode_eq_dec : EqDecision GameMode.
Proof. solve_decision. Defined.

(** What [calculateRewards] returns. *)
Record Rewards : Type := mkRewards { rewardCoins : Z; rewardXp : Z }.

(** The [useState] cells of the component that the handlers of the
    game read or write. *)
Record State : Type := mkState {
  boards : list BoardState;
  currentPlayer : Player;
  gameMode : GameMode;
  gameHistory : list (list BoardState);
  numberOfBoards : nat;
  boardSize : nat;
  showBoardConfig : bool;
  difficulty : nat;
  coins : Z;
  XP : Z;
  player1Name : string;
  player2Name : string;
  showWinnerModal : bool;
  winner : string
}.

Definition setBoards (v : list BoardState) (s : State) : State :=
  mkState v (currentPlayer s) (gameMode s) (gameHistory s)
          (numberOfBoards s) (boardSize s) (showBoardConfig s)
          (difficulty s) (coins s) (XP s) (player1Name s) (player2Name s)
          (showWinnerModal s) (winner s).

Definition setCurrentPlayer (v : Player) (s : State) : State :=
  mkState (boards s) v (gameMode s) (gameHistory s)
          (numberOfBoards s) (boardSize s) (showBoardConfig s)
          (difficulty s) (coins s) (XP s) (player1Name s) (player2Name s)
          (showWinnerModal s) (winner s).

Definition setGameHistory (v : list (list BoardState)) (s : State) : State :=
  mkState (boards s) (currentPlayer s) (gameMode s) v
          (numberOfBoards s) (boardSize s) (showBoardConfig s)
          (difficulty s) (coins s) (XP s) (player1Name s) (player2Name s)
          (showWinnerModal s) (winner s).

Definition setGameMode (v : GameMode) (s : State) : State :=
  mkState (boards s) (currentPlayer s) v (gameHistory s)
          (numberOfBoards s) (boardSize s) (showBoardConfig s)
          (difficulty s) (coins s) (XP s) (player1Name s) (player2Name s)
          (showWinnerModal s) (winner s).

Definition setDifficulty (v : nat) (s : State) : State :=
  mkState (boards s) (currentPlayer s) (gameMode s) (gameHistory s)
          (numberOfBoards s) (boardSize s) (showBoardConfig s)
          v (coins s) (XP s) (player1Name s) (player2Name s)
          (showWinnerModal s) (winner s).

Definition setPlayer1Name (v : string) (s : State) : State :=
  mkState (boards s) (currentPlayer s) (gameMode s) (gameHistory s)
          (numberOfBoards s) (boardSize s) (showBoardConfig s)
          (difficulty s) (coins s) (XP s) v (player2Name s)
          (showWinnerModal s) (winner s).

Definition setPlayer2Name (v : string) (s : State) : State :=
  mkState (boards s) (currentPlayer s) (gameMode s) (gameHistory s)
          (numberOfBoards s) (boardSize s) (showBoardConfig s)
          (difficulty s) (coins s) (XP s) (player1Name s) v
          (showWinnerModal s) (winner s).

Definition setNumberOfBoards (v : nat) (s : State) : State :=
  mkState (boards s) (currentPlayer s) (gameMode s) (gameHistory s)
          v (boardSize s) (showBoardConfig s)
          (difficulty s) (coins s) (XP s) (player1Name s) (player2Name s)
          (showWinnerModal s) (winner s).

Definition setBoardSize (v : nat) (s : State) : State :=
  mkState (boards s) (currentPlayer s) (gameMode s) (gameHistory s)
          (numberOfBoards s) v (showBoardConfig s)
          (difficulty s) (coins s) (XP s) (player1Name s) (player2Name s)
          (showWinnerModal s) (winner s).

Definition setShowBoardConfig (v : bool) (s : State) : State :=
  mkState (boards s) (currentPlayer s) (gameMode s) (gameHistory s)
          (numberOfBoards s) (boardSize s) v
          (difficulty s) (coins s) (XP s) (player1Name s) (player2Name s)
          (showWinnerModal s) (winner s).

Definition setCoins (v : Z) (s : State) : State :=
  mkState (boards s) (currentPlayer s) (gameMode s) (gameHistory s)
          (numberOfBoards s) (boardSize s) (showBoardConfig s)
          (difficulty s) v (XP s) (player1Name s) (player2Name s)
          (showWinnerModal s) (winner s).

Definition setXP (v : Z) (s : State) : State :=
  mkState (boards s) (currentPlayer s) (gameMode s) (gameHistory s)
          (numberOfBoards s) (boardSize s) (showBoardConfig s)
          (difficulty s) (coins s) v (player1Name s) (player2Name s)
          (showWinnerModal s) (winner s).

Definition setShowWinnerModal (v : bool) (s : State) : State :=
  mkState (boards s) (currentPlayer s) (gameMode s) (gameHistory s)
          (numberOfBoards s) (boardSize s) (showBoardConfig s)
          (difficulty s) (coins s) (XP s) (player1Name s) (player2Name s)
          v (winner s).

Definition setWinner (v : string) (s : State) : State :=
  mkState (boards s) (currentPlayer s) (gameMode s) (gameHistory s)
          (numberOfBoards s) (boardSize s) (showBoardConfig s)
          (difficulty s) (coins s) (XP s) (player1Name s) (player2Name s)
          (showWinnerModal s) v.

(** The state of the first render: the initial values of the
    [useState] cells; the coins and the experience come from the
    store. *)
Definition initial (coins XP : Z) : State :=
  mkState [] P1 NoMode [] 3 3 false 1 coins XP
          "Player 1" "Player 2" false EmptyString.

(** A handler returns normally with the next state, or throws the
    [TypeError] of an index into [undefined]. *)
Inductive Result : Type :=
  | Ok (s : State)
  | TypeError.

(** The [isBoardDead] of the component: rows are slices of the board,
    columns and diagonals are read cell by cell, [size] is the
    [boardSize] of the state. *)
Definition isBoardDead (boardSize : nat) (board : BoardState) : bool :=
  let size := boardSize in
  existsb (fun i =>
             let row := slice (i * size) ((i + 1) * size) board in
             let col := arrayFrom size (fun j => board !! (i + j * size)) in
             forallb cellIsX row || forallb optIsX col)
          (seq 0 size)
  || (let diag1 := arrayFrom size (fun i => board !! (i * (size + 1))) in
      let diag2 := arrayFrom size (fun i => board !! ((i + 1) * (size - 1))) in
      forallb optIsX diag1 || forallb optIsX diag2).

(** [c !== ''] on an element that may be [undefined]. *)
Definition notEmptyStr (c : option Cell) : bool :=
  match c with
  | Some Empty => false
  | _ => true
  end.

(** The [boards.map] of [handleMove]. *)
Definition markCell (boards : list BoardState) (boardIndex cellIndex : nat)
    : list BoardState :=
  imap (fun idx board =>
          if idx =? boardIndex
          then slice 0 cellIndex board ++ [Marked] ++ drop (cellIndex + 1) board
          else board)
       boards.

Section Handlers.

(** [calculateRewards] of [services/economyUtils] is not part of the
    sources at hand: the handlers take it as given.  Its results are
    taken to be integers. *)
Variable calculateRewards : bool -> nat -> nat -> nat -> Rewards.

(** The sounds and the alerts of the handlers leave the state alone
    and are left out.  [Math.round(XP + xp * 0.25)] on integers is
    the floor of [(4 * XP + xp + 2) / 4]. *)
Definition handleMove (s : State) (boardIndex cellIndex : nat) : Result :=
  match boards s !! boardIndex with
  | None => TypeError
  | Some target =>
      if notEmptyStr (target !! cellIndex)
         || isBoardDead (boardSize s) target
      then Ok s
      else
        let newBoards := markCell (boards s) boardIndex cellIndex in
        let s1 := setGameHistory (gameHistory s ++ [newBoards])
                    (setBoards newBoards s) in
        if forallb (isBoardDead (boardSize s)) newBoards then
          let loser := currentPlayer s in
          let winner := other loser in
          let isHumanWinner :=
            bool_decide (gameMode s = VsComputer)
            && bool_decide (winner = P1) in
          let isComputerWinner :=
            bool_decide (gameMode s = VsComputer)
            && bool_decide (winner = P2) in
          let rewards :=
            calculateRewards isHumanWinner (difficulty s)
                             (numberOfBoards s) (boardSize s) in
          let s2 :=
            if isHumanWinner
            then setXP (XP s + rewardXp rewards)%Z
                   (setCoins (coins s + rewardCoins rewards)%Z s1)
            else s1 in
          let s3 :=
            if isComputerWinner
            then setXP ((4 * XP s + rewardXp rewards + 2) / 4)%Z s2
            else s2 in
          let winnerName :=
            match winner with
            | P1 => player1Name s
            | P2 => player2Name s
            end in
          Ok (setShowWinnerModal true (setWinner winnerName s3))
        else
          Ok (setCurrentPlayer (other (currentPlayer s)) s1)
  end.

Definition resetGame (num size : nat) (s : State) : State :=
  let initialBoards := replicate num (replicate (size * size) Empty) in
  setShowWinnerModal false
    (setGameHistory [initialBoards]
       (setCurrentPlayer P1 (setBoards initialBoards s))).

Definition handleBoardConfigChange (num size : nat) (s : State) : State :=
  resetGame num size
    (setShowBoardConfig false
       (setBoardSize size
          (setNumberOfBoards (Nat.min 5 (Nat.max 1 num)) s))).

(** [gameHistory[gameHistory.length - 3]] exists when the length is
    at least 3; [h.slice(0, -2)] drops the last two snapshots. *)
Definition handleUndo (s : State) : State :=
  if 3 <=? length (gameHistory s) then
    if (100 <=? coins s)%Z then
      match gameHistory s !! (length (gameHistory s) - 3) with
      | Some snapshot =>
          setGameHistory
            (take (length (gameHistory s) - 2) (gameHistory s))
            (setBoards snapshot (setCoins (coins s - 100)%Z s))
      | None => s
      end
    else s
  else s.

Definition handleSkip (s : State) : State :=
  if (200 <=? coins s)%Z
  then setCurrentPlayer (other (currentPlayer s))
         (setCoins (coins s - 200)%Z s)
  else s.

(** The effect that plays for the computer: it runs when the mode is
    ['vsComputer'] and side 2 is to move, and applies the move that
    [findBestMove] returns, if any. *)
Definition computerMove (random : Random) (s : State) : Result :=
  if bool_decide (gameMode s = VsComputer)
     && bool_decide (currentPlayer s = P2)
  then
    match Ai.findBestMove random (boards s) (difficulty s)
                          (boardSize s) (numberOfBoards s) with
    | Some move => handleMove s (boardIndex move) (cellIndex move)
    | None => Ok s
    end
  else Ok s.

(** [startGame] of the menu; the names modal it opens for
    ['vsPlayer'] is not part of the state kept here. *)
Definition startGame (mode : GameMode) (s : State) : State :=
  let s1 :=
    match mode with
    | VsComputer => setPlayer2Name "Computer" (setPlayer1Name "You" s)
    | _ => s
    end in
  resetGame (numberOfBoards s) (boardSize s) (setGameMode mode s1).

(** [onSelect] of the difficulty modal. *)
Definition selectDifficulty (level : nat) (s : State) : State :=
  resetGame (numberOfBoards s) (boardSize s) (setDifficulty level s).

(** [onSubmit] of the names modal: [p || 'Player n']. *)
Definition submitNames (p1 p2 : string) (s : State) : State :=
  let orDefault (p fallback : string) : string :=
    match p with
    | EmptyString => fallback
    | _ => p
    end in
  setPlayer2Name (orDefault p2 "Player 2"%string)
    (setPlayer1Name (orDefault p1 "Player 1"%string) s).

(** [onMenu] of the winner modal. *)
Definition winnerToMenu (s : State) : State :=
  setGameMode NoMode (setShowWinnerModal false s).

(** What can happen to the state of the game: the handlers the
    component passes to its children, the effect of the computer,
    and the writes to the economy (sign-in, sign-out, purchases). *)
Inductive Event : Type :=
  | EvMove (boardIndex cellIndex : nat)
  | EvComputer (random : Random)
  | EvUndo
  | EvSkip
  | EvReset
  | EvConfig (num size : nat)
  | EvStartGame (mode : GameMode)
  | EvDifficulty (level : nat)
  | EvNames (p1 p2 : string)
  | EvExitToMenu
  | EvWinnerToMenu
  | EvEconomy (coins XP : Z).

Definition step (s : State) (e : Event) : Result :=
  match e with
  | EvMove boardIndex cellIndex => handleMove s boardIndex cellIndex
  | EvComputer random => computerMove random s
  | EvUndo => Ok (handleUndo s)
  | EvSkip => Ok (handleSkip s)
  | EvReset => Ok (resetGame (numberOfBoards s) (boardSize s) s)
  | EvConfig num size => Ok (handleBoardConfigChange num size s)
  | EvStartGame mode => Ok (startGame mode s)
  | EvDifficulty level => Ok (selectDifficulty level s)
  | EvNames p1 p2 => Ok (submitNames p1 p2 s)
  | EvExitToMenu => Ok (setGameMode NoMode s)
  | EvWinnerToMenu => Ok (winnerToMenu s)
  | EvEconomy coins XP => Ok (setXP XP (setCoins coins s))
  end.

(** The states of a game: those a reset produces, and those reached
    from them by events whose handler returns. *)
Inductive reachable : State -> Prop :=
  | reachable_reset num size s0 :
      reachable (resetGame num size s0)
  | reachable_step s e s' :
      reachable s -> step s e = Ok s' -> reachable s'.

End Handlers.

End App.

(** * Notions of the specification *)

(** The patterns of the catalog, in the words of the specification. *)
Definition rowPattern (size i : nat) : list nat :=
  (fun j => i * size + j) <$> seq 0 size.

Definition colPattern (size i : nat) : list nat :=
  (fun j => i + j * size) <$> seq 0 size.

Definition diagPattern (size : nat) : list nat :=
  (fun i => i * (size + 1)) <$> seq 0 size.

Definition antiDiagPattern (size : nat) : list nat :=
  (fun i => (i + 1) * (size - 1)) <$> seq 0 size.

(** [board'] is [board] with some of its Empty cells Marked. *)
Definition marksAdded (board board' : BoardState) : Prop :=
  Forall2 (fun c c' => c = Marked -> c' = Marked) board board'.

(** What makes a list of indices a pattern of a board of edge [size]. *)
Definition wellFormedPattern (size : nat) (pattern : list nat) : Prop :=
  length pattern = size
  /\ NoDup pattern
  /\ Forall (fun k => k < size * size) pattern.

(** The cache holds, for each size it knows, the catalog of that size. *)
Definition cacheSound (cache : gmap nat (list (list nat))) : Prop :=
  forall size patterns,
    cache !! size = Some patterns -> patterns = Ai.getWinPatterns size.

(** [playerName s p] is the name the component shows for side [p]. *)
Definition playerName (s : App.State) (p : App.Player) : string :=
  match p with
  | App.P1 => App.player1Name s
  | App.P2 => App.player2Name s
  end.

(** The boards after marking cell [cellIndex] of board [boardIndex]. *)
Definition withMark (boards : list BoardState) (boardIndex cellIndex : nat)
    : list BoardState :=
  match boards !! boardIndex with
  | Some target => <[boardIndex := <[cellIndex := Marked]> target]> boards
  | None => boards
  end.

(** The invariant of the history: its last snapshot is the live boards. *)
Definition historyTracksBoards (s : App.State) : Prop :=
  last (App.gameHistory s) = Some (App.boards s).

(** Fixtures: a rewards table that pays nothing, a fresh game of three
    3x3 boards, and a fresh game of one board with a single cell. *)
Definition noRewards (_ : bool) (_ _ _ : nat) : App.Rewards :=
  App.mkRewards 0 0.

Definition freshGame : App.State :=
  App.resetGame 3 3 (App.initial 1000 0).

Definition tinyGame : App.State :=
  App.resetGame 1 1 (App.setBoardSize 1 (App.initial 1000 0)).

(** The random value 0. *)
Definition randomZero : Random := mkRandom 0 (conj (Qle_refl 0) eq_refl).

(** The sum of a list of integers. *)
Definition sumZ (l : list Z) : Z := foldr Z.add 0%Z l.

(** The number of Marked cells of [board] among the indices of
    [pattern]. *)
Definition markedCount (board : BoardState) (pattern : list nat) : nat :=
  length (filter (fun i => board !! i = Some Marked) pattern).

(** The contribution of a non-dead board, from the patterns in catalog
    order: with a first pattern holding [size - 1] marks, minus 10 and
    minus 1 for each earlier pattern holding [size - 2] marks; without
    one, minus 1 for each pattern holding [size - 2] marks. *)
Definition patternsContribution (board : BoardState) (size : nat)
    (patterns : list (list nat)) : Z :=
  let oneShort pattern :=
    Z.of_nat (markedCount board pattern) = (Z.of_nat size - 1)%Z in
  let twoShort pattern :=
    Z.of_nat (markedCount board pattern) = (Z.of_nat size - 2)%Z in
  match list_find oneShort patterns with
  | Some (k, _) =>
      (- 10 - Z.of_nat (length (filter twoShort (take k patterns))))%Z
  | None => (- Z.of_nat (length (filter twoShort patterns)))%Z
  end.

(** The contribution of one board to the heuristic score. *)
Definition boardContribution (size : nat) (board : BoardState) : Z :=
  if Ai.isBoardDead board size then 0%Z
  else patternsContribution board size (Ai.getWinPatterns size).

(** A move is legal when its target board exists and is not dead and its
    target cell is Empty. *)
Definition legalMove (boards : list BoardState) (size : nat) (move : Move)
    : Prop :=
  exists board,
    boards !! boardIndex move = Some board
    /\ Ai.isBoardDead board size = false
    /\ board !! cellIndex move = Some Empty.

(** The indices of a move are in range: [updateBoards] does not throw
    on it. *)
Definition inRange (boards : list BoardState) (move : Move) : Prop :=
  exists board,
    boards !! boardIndex move = Some board
    /\ cellIndex move < length board.

(** Every call of [updateBoards] in a search of [depth] plies from
    [boards] is given a move in range. *)
Fixpoint searchInRange (depth : nat) (boards : list BoardState) (size : nat)
    : Prop :=
  match depth with
  | 0 => True
  | S depth' =>
      forall move,
        move ∈ Ai.getValidMoves boards size ->
        inRange boards move
        /\ searchInRange depth' (Ai.updateBoards boards move) size
  end.

(** A board is full when none of its cells is Empty. *)
Definition fullBoard (board : BoardState) : Prop :=
  Forall (fun c => c = Marked) board.

(** The moves [findBestMove] evaluates: all of them up to and including
    the first that scores plus infinity. *)
Fixpoint evaluatedMoves (score : Move -> Num.t) (moves : list Move)
    : list Move :=
  match moves with
  | [] => []
  | move :: rest =>
      if Num.eqb (score move) Num.PosInf then [move]
      else move :: evaluatedMoves score rest
  end.

(** The maximum of the scores of a list of moves. *)
Definition maxScore (score : Move -> Num.t) (moves : list Move) : Num.t :=
  foldr (fun move acc => Num.max (score move) acc) Num.NegInf moves.

(** The evaluated moves that are tied for the maximum score. *)
Definition tiedBest (score : Move -> Num.t) (moves : list Move) : list Move :=
  let evaluated := evaluatedMoves score moves in
  filter (fun move => score move = maxScore score evaluated) evaluated.

(** The tied-best set of a position, as [findBestMove] tracks it. *)
Definition bestSet (boards : list BoardState)
    (difficulty size numberOfBoards : nat) : list Move :=
  tiedBest
    (Ai.moveScore boards (Ai.getMaxDepth size numberOfBoards difficulty) size)
    (Ai.getValidMoves boards size).

(** Minimax with no pruning: the value of a position is the maximum, or
    the minimum, of the values of all the positions one legal move
    away. *)
Fixpoint minimaxPlain (depth : nat) (boards : list BoardState)
    (isMaximizing : bool) (boardSize : nat) : Num.t :=
  if Ai.allDead boards boardSize
  then (if isMaximizing then Num.NegInf else Num.PosInf)
  else
    match depth with
    | 0 => Num.Fin (Ai.heuristic boards boardSize)
    | S depth' =>
        let values :=
          (fun move =>
             minimaxPlain depth' (Ai.updateBoards boards move)
                          (negb isMaximizing) boardSize)
            <$> Ai.getValidMoves boards boardSize in
        if isMaximizing then foldl Num.max Num.NegInf values
        else foldl Num.min Num.PosInf values
    end.

(** What a search with window [alpha], [beta] that returns [r] says
    about the plain value [p]: at or below [alpha], [r] is an upper
    bound; at or above [beta], a lower bound; strictly inside, exact. *)
Definition failSoft (r p alpha beta : Num.t) : Prop :=
  (Num.le r alpha -> Num.le p r)
  /\ (Num.le beta r -> Num.le r p)
  /\ (Num.lt alpha r -> Num.lt r beta -> p = r).

(** The score of a move in the words of the specification: the value
    of plain minimax, with the opponent to move, [depth] plies deep, of
    the boards with the target cell of the move Marked. *)
Definition plainScore (boards : list BoardState) (depth size : nat)
    (move : Move) : Num.t :=
  minimaxPlain depth
    (withMark boards (boardIndex move) (cellIndex move)) false size.

(** The moves tied for the best minimax score, among those evaluated
    before the early exit, in the order of [getValidMoves]. *)
Definition tiedForBest (boards : list BoardState)
    (difficulty size numberOfBoards : nat) : list Move :=
  tiedBest
    (plainScore boards (Ai.getMaxDepth size numberOfBoards difficulty) size)
    (Ai.getValidMoves boards size).

(** A fixture for the tie-break: five 4x4 boards, four of them dead
    (first row marked) and one live with five marks. *)
Definition tieFixture : list BoardState :=
  let dead :=
    [Marked; Marked; Marked; Marked; Empty; Empty; Empty; Empty;
     Empty; Empty; Empty; Empty; Empty; Empty; Empty; Empty] in
  let live :=
    [Marked; Marked; Empty; Empty; Marked; Empty; Empty; Empty;
     Empty; Empty; Marked; Empty; Empty; Empty; Empty; Empty] in
  [dead; dead; dead; dead; live].

(** ** Notions for the further properties *)

(** Every board of the set has [size * size] cells. *)
Definition wellFormedBoards (size : nat) (boards : list BoardState) : Prop :=
  Forall (fun board => length board = size * size) boards.

(** The number of Marked cells of a board, and of a set of boards. *)
Definition markedCells (board : BoardState) : nat :=
  length (filter (fun c => c = Marked) board).

Definition markedTotal (boards : list BoardState) : nat :=
  sum_list (markedCells <$> boards).

(** The cell at [cellIndex] of the board at [boardIndex], if any. *)
Definition cellAt (boards : list BoardState) (boardIndex cellIndex : nat)
    : option Cell :=
  boards !! boardIndex ≫= fun board => board !! cellIndex.

(** A list of moves in which a move never comes after one of smaller
    key. *)
Fixpoint descending (key : Move -> Z) (moves : list Move) : Prop :=
  match moves with
  | [] => True
  | a :: rest =>
      Forall (fun b => (key b <= key a)%Z) rest /\ descending key rest
  end.

(** Twice the positional value of the target cell of a move; 0 stands
    for the [undefined] of a cell outside the table. *)
Definition moveKey (size : nat) (move : Move) : Z :=
  default 0%Z (Ai.getCellValue2 (cellIndex move) size).

(** Every snapshot of the history has as many boards as the live
    position, board by board of the same length. *)
Definition historyShaped (s : App.State) : Prop :=
  Forall (fun snapshot => length <$> snapshot = length <$> App.boards s)
         (App.gameHistory s).

(** The snapshot at position [k] of the history holds [k] marks. *)
Definition historyCounts (s : App.State) : Prop :=
  forall k snapshot,
    App.gameHistory s !! k = Some snapshot -> markedTotal snapshot = k.

(** A score is an infinity or an integer in the range of the heuristic
    for [n] boards of edge [size]. *)
Definition scoreInRange (size n : nat) (r : Num.t) : Prop :=
  match r with
  | Num.Fin z => (- (2 * Z.of_nat size + 11) * Z.of_nat n <= z <= 0)%Z
  | _ => True
  end.

(** A state in which the computer is to move. *)
Definition computerToMove (s : App.State) : Prop :=
  App.gameMode s = App.VsComputer /\ App.currentPlayer s = App.P2.

(** * Properties *)

(** ** Proof automation *)

(** Case analysis on every score in sight, on the integer comparisons
    and on the decisions that appear; arithmetic closes the cases. *)
Ltac num_crush :=
  unfold Num.eqb, Num.ltb, Num.max, Num.min in *;
  repeat match goal with
         | x : Num.t |- _ => destruct x
         end;
  simpl in *;
  repeat match goal with
         | |- context [(?x <=? ?y)%Z] =>
             destruct (Z.leb_spec x y); simpl in *
         | H : context [(?x <=? ?y)%Z] |- _ =>
             destruct (Z.leb_spec x y); simpl in *
         | |- context [bool_decide ?P] =>
             destruct (bool_decide_reflect P); simpl in *
         | H : context [bool_decide ?P] |- _ =>
             destruct (bool_decide_reflect P); simpl in *
         | |- context [decide ?P] => destruct (decide P); simpl in *
         | H : context [decide ?P] |- _ => destruct (decide P); simpl in *
         end;
  repeat match goal with
         | H : Num.Fin ?a <> Num.Fin ?b |- _ =>
             assert (a <> b) by congruence; clear H
         end;
  try (done || congruence || lia || (f_equal; lia)
       || (intros ?; simplify_eq; lia)).

(** The same for statements on [Num.le], [Num.lt], [Num.max] and
    [Num.min] over a few scores. *)
Ltac num_cases :=
  intros;
  unfold Num.le, Num.lt, Num.max, Num.min in *;
  repeat match goal with
         | x : Num.t |- _ => destruct x
         end;
  simpl in *;
  repeat match goal with
         | |- context [(?x <=? ?y)%Z] =>
             destruct (Z.leb_spec x y); simpl in *
         | H : context [(?x <=? ?y)%Z] |- _ =>
             destruct (Z.leb_spec x y); simpl in *
         end;
  try (done || lia || (f_equal; lia)).

(** ** The model on concrete inputs *)

Example getWinPatterns_3 :
  Ai.getWinPatterns 3
  = [[0; 1; 2]; [0; 3; 6]; [3; 4; 5]; [1; 4; 7];
     [6; 7; 8]; [2; 5; 8]; [0; 4; 8]; [2; 4; 6]].
Proof. reflexivity. Qed.

Example getValidMoves_center_first :
  cellIndex <$> Ai.getValidMoves [replicate 9 Empty] 3
  = [4; 1; 3; 5; 7; 0; 2; 6; 8].
Proof. reflexivity. Qed.

Example getValidMoves_skips_dead_boards :
  Ai.getValidMoves [[Marked; Marked; Empty; Empty];
                    [Empty; Marked; Empty; Empty]] 2
  = [mkMove 1 0; mkMove 1 2; mkMove 1 3].
Proof. reflexivity. Qed.

Example getMaxDepth_3_3_1 : Ai.getMaxDepth 3 3 1 = 3.
Proof. reflexivity. Qed.

Example getMaxDepth_4_4_1 : Ai.getMaxDepth 4 4 1 = 2.
Proof. reflexivity. Qed.

Example getMaxDepth_5_5_5 : Ai.getMaxDepth 5 5 5 = 3.
Proof. reflexivity. Qed.

Example heuristic_threat_ends_scan :
  Ai.heuristic [[Marked; Empty; Empty; Empty; Marked; Marked;
                 Empty; Empty; Empty]] 3 = (-12)%Z.
Proof. reflexivity. Qed.

Example heuristic_no_threat :
  Ai.heuristic [[Marked; Empty; Empty; Empty; Empty; Empty;
                 Empty; Empty; Empty];
                [Marked; Marked; Marked; Empty; Empty; Empty;
                 Empty; Empty; Empty]] 3 = (-3)%Z.
Proof. reflexivity. Qed.

Example isBoardDead_short_board :
  App.isBoardDead 3 [] = true /\ Ai.isBoardDead [] 3 = false.
Proof. split; reflexivity. Qed.

Example findBestMove_early_exit :
  bestSet [[Marked; Empty; Empty; Empty; Marked; Empty;
            Empty; Empty; Empty]] 1 3 1 = [mkMove 0 8].
Proof. reflexivity. Qed.

Example minimax_two_empty_boards :
  Ai.minimax 3 [replicate 9 Empty; replicate 9 Empty] true 3
             Num.NegInf Num.PosInf = Num.Fin (-8)
  /\ minimaxPlain 3 [replicate 9 Empty; replicate 9 Empty] true 3
     = Num.Fin (-8).
Proof. split; vm_compute; reflexivity. Qed.

Example handleMove_out_of_range :
  App.handleMove noRewards freshGame 3 0 = App.TypeError.
Proof. reflexivity. Qed.

(** ** The pattern catalog *)

Lemma foldl_push {A B : Type} (f : A -> list B) (l : list A) (acc : list B) :
  foldl (fun acc x => acc ++ f x) acc l = acc ++ concat (f <$> l).
Proof.
  revert acc. induction l as [|x l IH]; intros acc; simpl.
  - by rewrite app_nil_r.
  - by rewrite IH, app_assoc.
Qed.

Lemma getWinPatterns_unfold (size : nat) :
  Ai.getWinPatterns size
  = concat ((fun i => [rowPattern size i; colPattern size i]) <$> seq 0 size)
    ++ [diagPattern size; antiDiagPattern size].
Proof.
  unfold Ai.getWinPatterns, arrayFrom.
  by rewrite (foldl_push (fun i => [rowPattern size i; colPattern size i])).
Qed.

Lemma length_pairs {A : Type} (r c : nat -> A) (s n : nat) :
  length (concat ((fun i => [r i; c i]) <$> seq s n)) = 2 * n.
Proof.
  revert s. induction n as [|n IH]; intros s; simpl; [done|].
  rewrite IH. lia.
Qed.

Lemma lookup_pairs {A : Type} (r c : nat -> A) (s n k : nat) :
  k < n ->
  concat ((fun i => [r i; c i]) <$> seq s n) !! (2 * k) = Some (r (s + k))
  /\ concat ((fun i => [r i; c i]) <$> seq s n) !! (2 * k + 1) = Some (c (s + k)).
Proof.
  revert s k. induction n as [|n IH]; intros s k Hk; [lia|].
  destruct k as [|k]; simpl.
  - by rewrite Nat.add_0_r.
  - replace (k + S (k + 0)) with (S (2 * k)) by lia.
    replace (s + S k) with (S s + k) by lia. simpl.
    apply IH. lia.
Qed.

Lemma Forall_pairs {A : Type} (P : A -> Prop) (r c : nat -> A) (s n : nat) :
  (forall i, s <= i < s + n -> P (r i) /\ P (c i)) ->
  Forall P (concat ((fun i => [r i; c i]) <$> seq s n)).
Proof.
  revert s. induction n as [|n IH]; intros s HP; simpl; [constructor|].
  destruct (HP s ltac:(lia)) as [Hr Hc].
  constructor; [done|]. constructor; [done|].
  apply IH. intros i Hi. apply HP. lia.
Qed.

Lemma wellFormed_fmap_seq (size : nat) (f : nat -> nat) :
  (forall j, j < size -> f j < size * size) ->
  (forall j j', j < size -> j' < size -> f j = f j' -> j = j') ->
  wellFormedPattern size (f <$> seq 0 size).
Proof.
  intros Hrange Hinj. repeat split.
  - by rewrite length_fmap, length_seq.
  - apply NoDup_fmap_2_strong; [|apply NoDup_seq].
    intros j j' Hj Hj'. apply elem_of_seq in Hj, Hj'. apply Hinj; lia.
  - apply Forall_fmap, Forall_forall. intros j Hj.
    apply elem_of_seq in Hj. simpl. apply Hrange. lia.
Qed.

Lemma rowPattern_wellFormed (size i : nat) :
  i < size -> wellFormedPattern size (rowPattern size i).
Proof.
  intros Hi. apply wellFormed_fmap_seq; intros; nia.
Qed.

Lemma colPattern_wellFormed (size i : nat) :
  i < size -> wellFormedPattern size (colPattern size i).
Proof.
  intros Hi. apply wellFormed_fmap_seq; intros; nia.
Qed.

Lemma diagPattern_wellFormed (size : nat) :
  wellFormedPattern size (diagPattern size).
Proof.
  apply wellFormed_fmap_seq; intros; nia.
Qed.

Lemma antiDiagPattern_wellFormed (size : nat) :
  1 <= size -> wellFormedPattern size (antiDiagPattern size).
Proof.
  intros Hsize. apply wellFormed_fmap_seq; intros; nia.
Qed.

Lemma getWinPatterns_cached_sound cache size :
  cacheSound cache ->
  fst (Ai.getWinPatterns_cached cache size) = Ai.getWinPatterns size
  /\ cacheSound (snd (Ai.getWinPatterns_cached cache size)).
Proof.
  intros Hc. unfold Ai.getWinPatterns_cached.
  destruct (cache !! size) as [p|] eqn:E; simpl.
  - split; [by apply Hc | done].
  - split; [done|]. intros k p Hk.
    destruct (decide (size = k)) as [->|Hne].
    + rewrite lookup_insert_eq in Hk. by inversion Hk.
    + rewrite lookup_insert_ne in Hk by done. by apply Hc.
Qed.

Lemma runCached_sound sizes cache :
  cacheSound cache ->
  fst (Ai.runCached cache sizes) = Ai.getWinPatterns <$> sizes
  /\ cacheSound (snd (Ai.runCached cache sizes)).
Proof.
  revert cache. induction sizes as [|size rest IH]; intros cache Hc; simpl.
  - done.
  - destruct (getWinPatterns_cached_sound cache size Hc) as [Hp Hc'].
    destruct (Ai.getWinPatterns_cached cache size) as [p c']. simpl in *.
    destruct (IH c' Hc') as [Hr Hc''].
    destruct (Ai.runCached c' rest) as [rs c'']. simpl in *.
    by subst.
Qed.

Lemma cacheSound_empty : cacheSound ∅.
Proof. intros size p H. by rewrite lookup_empty in H. Qed.

(** C8. For every [size >= 1] the catalog has exactly [2 * size + 2]
    patterns: row [i] and column [i] at positions [2 * i] and [2 * i + 1]
    for each [i < size], then the two diagonals.  Every pattern has
    exactly [size] indices, pairwise distinct and all below [size * size].
    The cache is transparent: after any calls, a call for [size] returns
    this catalog, and so does a later call for the same [size]. *)
Theorem getWinPatterns_catalog (size : nat) (Hsize : 1 <= size) :
  let patterns := Ai.getWinPatterns size in
  length patterns = 2 * size + 2
  /\ (forall i, i < size ->
        patterns !! (2 * i) = Some (rowPattern size i)
        /\ patterns !! (2 * i + 1) = Some (colPattern size i))
  /\ patterns !! (2 * size) = Some (diagPattern size)
  /\ patterns !! (2 * size + 1) = Some (antiDiagPattern size)
  /\ Forall (wellFormedPattern size) patterns
  /\ (forall before between : list nat,
        let cache0 := snd (Ai.runCached ∅ before) in
        let first := Ai.getWinPatterns_cached cache0 size in
        let cache1 := snd (Ai.runCached (snd first) between) in
        let second := Ai.getWinPatterns_cached cache1 size in
        fst first = patterns /\ fst second = fst first).
Proof.
  intros patterns. subst patterns. rewrite getWinPatterns_unfold.
  pose proof (length_pairs (rowPattern size) (colPattern size) 0 size) as Hlen.
  split; [|split; [|split; [|split; [|split]]]].
  - rewrite length_app, Hlen. simpl. lia.
  - intros i Hi.
    destruct (lookup_pairs (rowPattern size) (colPattern size) 0 size i Hi)
      as [Hr Hc].
    split; (rewrite lookup_app_l by (rewrite Hlen; lia)); done.
  - rewrite lookup_app_r by (rewrite Hlen; lia).
    rewrite Hlen. by replace (2 * size - 2 * size) with 0 by lia.
  - rewrite lookup_app_r by (rewrite Hlen; lia).
    rewrite Hlen. by replace (2 * size + 1 - 2 * size) with 1 by lia.
  - apply Forall_app. split.
    + apply Forall_pairs. intros i Hi.
      split; [apply rowPattern_wellFormed | apply colPattern_wellFormed]; lia.
    + constructor; [apply diagPattern_wellFormed|].
      constructor; [by apply antiDiagPattern_wellFormed | constructor].
  - intros before between cache0 first cache1 second.
    rewrite <- getWinPatterns_unfold.
    destruct (runCached_sound before ∅ cacheSound_empty) as [_ H0].
    destruct (getWinPatterns_cached_sound cache0 size H0) as [H1 H1'].
    destruct (runCached_sound between _ H1') as [_ H2].
    destruct (getWinPatterns_cached_sound cache1 size H2) as [H3 _].
    subst first second. by rewrite H3, H1.
Qed.

Lemma getWinPatterns_catalog_witness :
  length (Ai.getWinPatterns 3) = 8
  /\ Ai.getWinPatterns 3 !! 6 = Some [0; 4; 8]
  /\ Ai.getWinPatterns 3 !! 7 = Some [2; 4; 6].
Proof.
  destruct (getWinPatterns_catalog 3 ltac:(lia)) as (Hl & _ & Hd & Ha & _).
  split; [exact Hl | split; [exact Hd | exact Ha]].
Defined.

(** ** Dead boards stay dead *)

Lemma forallb_mono {A : Type} (f g : A -> bool) (l : list A) :
  (forall x, f x = true -> g x = true) ->
  forallb f l = true -> forallb g l = true.
Proof.
  intros Hfg. induction l as [|x l IH]; simpl; [done|].
  intros [Hx Hl]%andb_prop. by rewrite (Hfg x Hx), IH.
Qed.

Lemma existsb_mono {A : Type} (f g : A -> bool) (l : list A) :
  (forall x, f x = true -> g x = true) ->
  existsb f l = true -> existsb g l = true.
Proof.
  intros Hfg. induction l as [|x l IH]; simpl; [done|].
  intros [Hx|Hl]%orb_prop.
  - by rewrite (Hfg x Hx).
  - rewrite IH by done. apply orb_true_r.
Qed.

Lemma forallb_fmap {A B : Type} (p : B -> bool) (f : A -> B) (l : list A) :
  forallb p (f <$> l) = forallb (fun x => p (f x)) l.
Proof. induction l as [|x l IH]; csimpl; [done|]. by rewrite IH. Qed.

Lemma marksAdded_lookup board board' i :
  marksAdded board board' ->
  optIsX (board !! i) = true -> optIsX (board' !! i) = true.
Proof.
  intros H Hx.
  destruct (board !! i) as [c|] eqn:E; [|done].
  destruct (Forall2_lookup_l _ _ _ _ _ H E) as (c' & E' & Hc).
  rewrite E'. destruct c; [done|]. by rewrite Hc.
Qed.

Lemma marksAdded_isX board board' i :
  marksAdded board board' -> isX board i = true -> isX board' i = true.
Proof. apply marksAdded_lookup. Qed.

Lemma marksAdded_every board board' :
  marksAdded board board' ->
  forallb cellIsX board = true -> forallb cellIsX board' = true.
Proof.
  induction 1 as [|c c' l l' Hc _ IH]; simpl; [done|].
  intros [Hx Hl]%andb_prop.
  destruct c; [done|]. by rewrite Hc, IH.
Qed.

Lemma marksAdded_slice board board' start stop :
  marksAdded board board' ->
  marksAdded (slice start stop board) (slice start stop board').
Proof. intros H. by apply Forall2_take, Forall2_drop. Qed.

Lemma ai_isBoardDead_mono board board' size :
  marksAdded board board' ->
  Ai.isBoardDead board size = true -> Ai.isBoardDead board' size = true.
Proof.
  intros H. unfold Ai.isBoardDead.
  apply existsb_mono. intros pattern.
  apply forallb_mono. intros i. by apply marksAdded_isX.
Qed.

Lemma app_isBoardDead_mono board board' size :
  marksAdded board board' ->
  App.isBoardDead size board = true -> App.isBoardDead size board' = true.
Proof.
  intros H. unfold App.isBoardDead, arrayFrom.
  rewrite !forallb_fmap.
  intros [Hrc|Hd]%orb_prop; apply orb_true_iff; [left|right].
  - revert Hrc. apply existsb_mono. intros i.
    rewrite !forallb_fmap.
    intros [Hr|Hc]%orb_prop; apply orb_true_iff; [left|right].
    + revert Hr. by apply marksAdded_every, marksAdded_slice.
    + revert Hc. apply forallb_mono. intros j. by apply marksAdded_lookup.
  - apply orb_prop in Hd as [Hd|Hd]; apply orb_true_iff; [left|right];
      revert Hd; apply forallb_mono; intros j; by apply marksAdded_lookup.
Qed.

Lemma existsb_pairs {A : Type} (f : A -> bool) (r c : nat -> A) (l : list nat) :
  existsb f (concat ((fun i => [r i; c i]) <$> l))
  = existsb (fun i => f (r i) || f (c i)) l.
Proof.
  induction l as [|i l IH]; csimpl; [done|].
  by rewrite IH, orb_assoc.
Qed.

Lemma existsb_ext_elem {A : Type} (f g : A -> bool) (l : list A) :
  (forall x, x ∈ l -> f x = g x) -> existsb f l = existsb g l.
Proof.
  induction l as [|x l IH]; intros Hfg; simpl; [done|].
  rewrite (Hfg x) by apply list_elem_of_here.
  rewrite IH; [done|]. intros y Hy. by apply Hfg, list_elem_of_further.
Qed.

Lemma forallb_pointwise {A : Type} (f g : A -> bool) (l : list A) :
  (forall x, f x = g x) -> forallb f l = forallb g l.
Proof.
  intros Hfg. induction l as [|x l IH]; simpl; [done|].
  by rewrite Hfg, IH.
Qed.

Lemma forallb_take_lookup (n : nat) (l : list Cell) :
  n <= length l ->
  forallb cellIsX (take n l)
  = forallb (fun j => optIsX (l !! j)) (seq 0 n).
Proof.
  revert l. induction n as [|n IH]; intros l Hn; [done|].
  destruct l as [|c l]; [simpl in Hn; lia|].
  simpl take. simpl seq. rewrite <- fmap_S_seq. simpl forallb at 1 2.
  rewrite forallb_fmap. simpl in Hn.
  rewrite IH by lia. by destruct c.
Qed.

Lemma slice_row_every size i (board : BoardState) :
  length board = size * size -> i < size ->
  forallb cellIsX (slice (i * size) ((i + 1) * size) board)
  = forallb (isX board) (rowPattern size i).
Proof.
  intros Hlen Hi. unfold slice, rowPattern.
  replace ((i + 1) * size - i * size) with size by lia.
  rewrite forallb_take_lookup by (rewrite length_drop; nia).
  rewrite forallb_fmap. apply forallb_pointwise. intros j.
  unfold isX. by rewrite lookup_drop.
Qed.

(** On a board of [size * size] cells the dead-board test of the
    component and the one of the search module agree. *)
Lemma isBoardDead_agree size (board : BoardState) :
  length board = size * size ->
  App.isBoardDead size board = Ai.isBoardDead board size.
Proof.
  intros Hlen. unfold Ai.isBoardDead, App.isBoardDead, arrayFrom.
  rewrite getWinPatterns_unfold, existsb_app, existsb_pairs.
  simpl existsb at 3. rewrite orb_false_r.
  unfold diagPattern, antiDiagPattern. rewrite !forallb_fmap.
  f_equal. apply existsb_ext_elem. intros i Hi%elem_of_seq.
  rewrite slice_row_every by (done || lia).
  unfold colPattern. by rewrite !forallb_fmap.
Qed.

(** C9. [isBoardDead] is monotonic under marking, in the search module
    and in the component alike: a dead board is still dead after any of
    its Empty cells are changed to Marked. *)
Theorem isBoardDead_monotonic (size : nat) (board board' : BoardState) :
  marksAdded board board' ->
  (Ai.isBoardDead board size = true -> Ai.isBoardDead board' size = true)
  /\ (App.isBoardDead size board = true -> App.isBoardDead size board' = true).
Proof.
  intros H. split;
    [by apply ai_isBoardDead_mono | by apply app_isBoardDead_mono].
Qed.

Lemma isBoardDead_monotonic_witness :
  Ai.isBoardDead [Marked; Marked; Marked; Empty; Marked; Empty;
                  Empty; Empty; Marked] 3 = true
  /\ App.isBoardDead 3 [Marked; Marked; Marked; Empty; Marked; Empty;
                        Empty; Empty; Marked] = true.
Proof.
  pose proof (isBoardDead_monotonic 3
    [Marked; Marked; Marked; Empty; Empty; Empty; Empty; Empty; Empty]
    [Marked; Marked; Marked; Empty; Marked; Empty; Empty; Empty; Marked])
    as H.
  destruct H as [Ha Hb].
  - unfold marksAdded. repeat constructor; done.
  - split; [apply Ha | apply Hb]; reflexivity.
Defined.

(** ** The game state machine *)

Lemma markCell_withMark boards boardIndex cellIndex target :
  boards !! boardIndex = Some target ->
  cellIndex < length target ->
  App.markCell boards boardIndex cellIndex
  = withMark boards boardIndex cellIndex.
Proof.
  intros Hb Hc. unfold App.markCell, withMark. rewrite Hb.
  apply list_eq. intros i. rewrite list_lookup_imap.
  destruct (decide (i = boardIndex)) as [->|Hne].
  - rewrite Hb. simpl. rewrite Nat.eqb_refl.
    rewrite list_lookup_insert_eq by (by eapply lookup_lt_Some).
    f_equal. unfold slice. rewrite Nat.sub_0_r, drop_0.
    rewrite insert_take_drop by done.
    by replace (cellIndex + 1) with (S cellIndex) by lia.
  - rewrite list_lookup_insert_ne by done.
    destruct (boards !! i) as [b|]; simpl; [|done].
    by destruct (Nat.eqb_spec i boardIndex).
Qed.

Lemma withMark_neq boards boardIndex cellIndex target :
  boards !! boardIndex = Some target ->
  target !! cellIndex = Some Empty ->
  withMark boards boardIndex cellIndex <> boards.
Proof.
  intros Hb Hc Heq. unfold withMark in Heq. rewrite Hb in Heq.
  assert (H : (<[boardIndex := <[cellIndex := Marked]> target]> boards)
              !! boardIndex = Some target) by (by rewrite Heq).
  rewrite list_lookup_insert_eq in H by (by eapply lookup_lt_Some).
  assert (H' : (<[cellIndex := Marked]> target) !! cellIndex = Some Empty)
    by (injection H as H1; congruence).
  rewrite list_lookup_insert_eq in H' by (by eapply lookup_lt_Some).
  discriminate.
Qed.

Lemma handleMove_applied calc s boardIndex cellIndex target :
  App.boards s !! boardIndex = Some target ->
  target !! cellIndex = Some Empty ->
  App.isBoardDead (App.boardSize s) target = false ->
  exists s',
    App.handleMove calc s boardIndex cellIndex = App.Ok s'
    /\ App.boards s' = withMark (App.boards s) boardIndex cellIndex
    /\ App.gameHistory s' = App.gameHistory s ++ [App.boards s']
    /\ (if forallb (App.isBoardDead (App.boardSize s)) (App.boards s')
        then App.currentPlayer s' = App.currentPlayer s
             /\ App.showWinnerModal s' = true
             /\ App.winner s' = playerName s (App.other (App.currentPlayer s))
        else App.currentPlayer s' = App.other (App.currentPlayer s)
             /\ App.showWinnerModal s' = App.showWinnerModal s
             /\ App.winner s' = App.winner s).
Proof.
  intros Hb Hc Hd. unfold App.handleMove. rewrite Hb, Hc, Hd. simpl.
  rewrite (markCell_withMark _ _ _ target) by (done || by eapply lookup_lt_Some).
  destruct (forallb _ (withMark _ _ _)) eqn:Hall.
  - eexists. split; [reflexivity|].
    destruct (App.currentPlayer s) eqn:Hp, (App.gameMode s) eqn:Hm;
      simpl; rewrite ?Hall; unfold playerName; by rewrite ?Hp.
  - eexists. split; [reflexivity|]. simpl. by rewrite Hall.
Qed.

Lemma handleMove_refused calc s boardIndex cellIndex target :
  App.boards s !! boardIndex = Some target ->
  target !! cellIndex <> Some Empty
  \/ App.isBoardDead (App.boardSize s) target = true ->
  App.handleMove calc s boardIndex cellIndex = App.Ok s.
Proof.
  intros Hb Hr. unfold App.handleMove. rewrite Hb.
  destruct Hr as [Hc|Hd].
  - destruct (target !! cellIndex) as [[]|]; done.
  - rewrite Hd. by rewrite orb_true_r.
Qed.

(** C1. A legal move (target board not dead, target cell Empty) is
    applied: the new boards are the old ones with exactly that cell
    Marked, and they are appended to the history.  If the new boards are
    all dead the turn marker stays on the mover, the winner dialog
    opens, and the winner announced is the mover's opponent (side 2
    when side 1 moved, side 1 when side 2 moved): the loser is the side
    that just moved.  Otherwise the turn marker flips: it differs from
    the mover, side 2 after side 1 and side 1 after side 2. *)
Theorem handleMove_legal_move
    (calc : bool -> nat -> nat -> nat -> App.Rewards)
    (s : App.State) (boardIndex cellIndex : nat) (target : BoardState) :
  App.boards s !! boardIndex = Some target ->
  App.isBoardDead (App.boardSize s) target = false ->
  target !! cellIndex = Some Empty ->
  exists s',
    App.handleMove calc s boardIndex cellIndex = App.Ok s'
    /\ App.boards s'
       = <[boardIndex := <[cellIndex := Marked]> target]> (App.boards s)
    /\ App.gameHistory s' = App.gameHistory s ++ [App.boards s']
    /\ (if forallb (App.isBoardDead (App.boardSize s)) (App.boards s')
        then App.currentPlayer s' = App.currentPlayer s
             /\ App.showWinnerModal s' = true
             /\ App.winner s'
                = match App.currentPlayer s with
                  | App.P1 => App.player2Name s
                  | App.P2 => App.player1Name s
                  end
        else App.currentPlayer s' <> App.currentPlayer s
             /\ App.currentPlayer s'
                = match App.currentPlayer s with
                  | App.P1 => App.P2
                  | App.P2 => App.P1
                  end).
Proof.
  intros Hb Hd Hc.
  destruct (handleMove_applied calc s boardIndex cellIndex target Hb Hc Hd)
    as (s' & Hs' & Hboards & Hhist & Hturn).
  exists s'. split; [done|]. split.
  - rewrite Hboards. unfold withMark. by rewrite Hb.
  - split; [done|].
    destruct (forallb _ (App.boards s')).
    + destruct Hturn as (Hp & Hm & Hw). split; [done|]. split; [done|].
      rewrite Hw. by destruct (App.currentPlayer s).
    + destruct Hturn as (Hp & _). rewrite Hp.
      by destruct (App.currentPlayer s).
Qed.

(** C2. With the target board at hand, [handleMove] returns, and the
    state it returns is the state it was given exactly when the target
    cell is not Empty or the target board is dead; in the remaining
    case both the boards and the history differ from before. *)
Theorem handleMove_refused_iff
    (calc : bool -> nat -> nat -> nat -> App.Rewards)
    (s : App.State) (boardIndex cellIndex : nat) (target : BoardState) :
  App.boards s !! boardIndex = Some target ->
  exists s',
    App.handleMove calc s boardIndex cellIndex = App.Ok s'
    /\ (s' = s <->
        target !! cellIndex <> Some Empty
        \/ App.isBoardDead (App.boardSize s) target = true)
    /\ (App.boards s' <> App.boards s
        /\ App.gameHistory s' <> App.gameHistory s <->
        target !! cellIndex = Some Empty
        /\ App.isBoardDead (App.boardSize s) target = false).
Proof.
  intros Hb.
  destruct (decide (target !! cellIndex = Some Empty)) as [Hc|Hc];
    [destruct (App.isBoardDead (App.boardSize s) target) eqn:Hd|].
  - exists s. split; [apply (handleMove_refused _ _ _ _ target); auto|].
    split; [by intuition|]. split; [by intros [? _]|by intros [_ ?]].
  - destruct (handleMove_applied calc s boardIndex cellIndex target Hb Hc Hd)
      as (s' & Hs' & Hboards & Hhist & _).
    assert (Hne : App.boards s' <> App.boards s)
      by (rewrite Hboards; by eapply withMark_neq).
    assert (Hh : App.gameHistory s' <> App.gameHistory s).
    { rewrite Hhist. intros Heq. apply (f_equal length) in Heq.
      rewrite length_app in Heq. simpl in Heq. lia. }
    exists s'. split; [done|]. split.
    + split; [intros ->; done | intros [?|?]; congruence].
    + by split.
  - exists s. split; [apply (handleMove_refused _ _ _ _ target); auto|].
    split; [by intuition|]. split; [by intros [? _]|by intros [? _]].
Qed.

Lemma handleMove_refused_or_applied calc s boardIndex cellIndex target :
  App.boards s !! boardIndex = Some target ->
  App.handleMove calc s boardIndex cellIndex = App.Ok s
  \/ exists s',
       App.handleMove calc s boardIndex cellIndex = App.Ok s'
       /\ App.boards s' = withMark (App.boards s) boardIndex cellIndex
       /\ App.gameHistory s' = App.gameHistory s ++ [App.boards s']
       /\ target !! cellIndex = Some Empty
       /\ App.isBoardDead (App.boardSize s) target = false.
Proof.
  intros Hb.
  destruct (decide (target !! cellIndex = Some Empty)) as [Hc|Hc];
    [destruct (App.isBoardDead (App.boardSize s) target) eqn:Hd|].
  - left. apply (handleMove_refused _ _ _ _ target); auto.
  - right.
    destruct (handleMove_applied calc s boardIndex cellIndex target Hb Hc Hd)
      as (s' & Hs' & Hboards & Hhist & _).
    by exists s'.
  - left. apply (handleMove_refused _ _ _ _ target); auto.
Qed.

Lemma resetGame_tracks num size s :
  historyTracksBoards (App.resetGame num size s).
Proof. done. Qed.

Lemma handleUndo_tracks s :
  3 <= length (App.gameHistory s) ->
  (100 <= App.coins s)%Z ->
  historyTracksBoards (App.handleUndo s)
  /\ App.gameHistory (App.handleUndo s)
     = take (length (App.gameHistory s) - 2) (App.gameHistory s).
Proof.
  intros Hlen Hcoins. unfold App.handleUndo, historyTracksBoards.
  destruct (Nat.leb_spec 3 (length (App.gameHistory s))); [|lia].
  destruct (Z.leb_spec 100 (App.coins s)); [|lia].
  destruct (lookup_lt_is_Some_2 (App.gameHistory s)
              (length (App.gameHistory s) - 3) ltac:(lia)) as [snap Hsnap].
  rewrite Hsnap. simpl. split; [|done].
  rewrite last_lookup, length_take_le by lia.
  rewrite lookup_take_lt by lia.
  by replace (pred (length (App.gameHistory s) - 2))
    with (length (App.gameHistory s) - 3) by lia.
Qed.

Lemma handleUndo_preserves s :
  historyTracksBoards s -> historyTracksBoards (App.handleUndo s).
Proof.
  intros Hs. unfold App.handleUndo.
  destruct (Nat.leb_spec 3 (length (App.gameHistory s))) as [Hlen|]; [|done].
  destruct (Z.leb_spec 100 (App.coins s)) as [Hc|]; [|done].
  pose proof (handleUndo_tracks s Hlen Hc) as [H _].
  unfold App.handleUndo in H.
  destruct (Nat.leb_spec 3 (length (App.gameHistory s))); [|lia].
  by destruct (Z.leb_spec 100 (App.coins s)); [|lia].
Qed.

Lemma handleSkip_preserves s :
  historyTracksBoards s -> historyTracksBoards (App.handleSkip s).
Proof.
  intros Hs. unfold App.handleSkip.
  by destruct (Z.leb_spec 200 (App.coins s)).
Qed.

Lemma handleMove_preserves calc s boardIndex cellIndex s' :
  historyTracksBoards s ->
  App.handleMove calc s boardIndex cellIndex = App.Ok s' ->
  historyTracksBoards s'.
Proof.
  intros Hs Hm.
  destruct (App.boards s !! boardIndex) as [target|] eqn:Hb;
    [|unfold App.handleMove in Hm; by rewrite Hb in Hm].
  destruct (decide (target !! cellIndex = Some Empty)) as [Hc|Hc];
    [destruct (App.isBoardDead (App.boardSize s) target) eqn:Hd|].
  - rewrite (handleMove_refused calc s _ _ target) in Hm by auto.
    by injection Hm as <-.
  - destruct (handleMove_applied calc s boardIndex cellIndex target Hb Hc Hd)
      as (s'' & Hs'' & _ & Hhist & _).
    rewrite Hs'' in Hm. injection Hm as <-.
    unfold historyTracksBoards. rewrite Hhist. apply last_snoc.
  - rewrite (handleMove_refused calc s _ _ target) in Hm by auto.
    by injection Hm as <-.
Qed.

Lemma step_preserves calc s e s' :
  historyTracksBoards s -> App.step calc s e = App.Ok s' ->
  historyTracksBoards s'.
Proof.
  intros Hs Hstep.
  destruct e as [bi ci|random| | | |num size|mode|level|p1 p2| | |c x];
    simpl in Hstep.
  - by eapply handleMove_preserves.
  - unfold App.computerMove in Hstep.
    destruct (_ && _); [|by injection Hstep as <-].
    destruct (Ai.findBestMove _ _ _ _ _) as [move|];
      [by eapply handleMove_preserves | by injection Hstep as <-].
  - injection Hstep as <-. by apply handleUndo_preserves.
  - injection Hstep as <-. by apply handleSkip_preserves.
  - by injection Hstep as <-.
  - by injection Hstep as <-.
  - by injection Hstep as <-.
  - by injection Hstep as <-.
  - by injection Hstep as <-.
  - by injection Hstep as <-.
  - by injection Hstep as <-.
  - by injection Hstep as <-.
Qed.

(** C10. The last snapshot of the history is the live boards after a
    reset, after a move that was applied, and after an undo that rolled
    back; hence in every state of a game. *)
Theorem history_tail_is_live
    (calc : bool -> nat -> nat -> nat -> App.Rewards) :
  (forall num size s0, historyTracksBoards (App.resetGame num size s0))
  /\ (forall s boardIndex cellIndex s',
        App.handleMove calc s boardIndex cellIndex = App.Ok s' ->
        s' <> s -> historyTracksBoards s')
  /\ (forall s,
        3 <= length (App.gameHistory s) -> (100 <= App.coins s)%Z ->
        historyTracksBoards (App.handleUndo s))
  /\ (forall s, App.reachable calc s -> historyTracksBoards s).
Proof.
  split; [|split; [|split]].
  - apply resetGame_tracks.
  - intros s bi ci s' Hm Hne.
    destruct (App.boards s !! bi) as [target|] eqn:Hb;
      [|unfold App.handleMove in Hm; by rewrite Hb in Hm].
    destruct (handleMove_refused_or_applied calc s bi ci target Hb)
      as [Hr|(s'' & Hs'' & _ & Hhist & _)].
    + rewrite Hr in Hm. injection Hm as <-. done.
    + rewrite Hs'' in Hm. injection Hm as <-.
      unfold historyTracksBoards. rewrite Hhist. apply last_snoc.
  - intros s Hlen Hcoins. by apply handleUndo_tracks.
  - induction 1 as [num size s0|s e s' _ IH Hstep].
    + apply resetGame_tracks.
    + by eapply step_preserves.
Qed.

Lemma handleMove_legal_move_witness :
  (exists s', App.handleMove noRewards freshGame 1 4 = App.Ok s'
              /\ App.currentPlayer s' = App.P2)
  /\ (exists s', App.handleMove noRewards (App.handleSkip freshGame) 1 4
                 = App.Ok s'
                 /\ App.currentPlayer s' = App.P1)
  /\ (exists s', App.handleMove noRewards tinyGame 0 0 = App.Ok s'
                 /\ App.currentPlayer s' = App.P1
                 /\ App.winner s' = "Player 2"%string)
  /\ (exists s', App.handleMove noRewards (App.handleSkip tinyGame) 0 0
                 = App.Ok s'
                 /\ App.currentPlayer s' = App.P2
                 /\ App.winner s' = "Player 1"%string).
Proof.
  split; [|split; [|split]].
  - destruct (handleMove_legal_move noRewards freshGame 1 4
                (replicate 9 Empty))
      as (s' & Hs' & Hboards & _ & Hturn); [reflexivity..|].
    exists s'. split; [exact Hs'|].
    rewrite Hboards in Hturn. exact (proj2 Hturn).
  - destruct (handleMove_legal_move noRewards (App.handleSkip freshGame) 1 4
                (replicate 9 Empty))
      as (s' & Hs' & Hboards & _ & Hturn); [reflexivity..|].
    exists s'. split; [exact Hs'|].
    rewrite Hboards in Hturn. exact (proj2 Hturn).
  - destruct (handleMove_legal_move noRewards tinyGame 0 0 [Empty])
      as (s' & Hs' & Hboards & _ & Hturn); [reflexivity..|].
    exists s'. split; [exact Hs'|].
    rewrite Hboards in Hturn. destruct Hturn as (Hp & _ & Hw).
    split; [exact Hp | exact Hw].
  - destruct (handleMove_legal_move noRewards (App.handleSkip tinyGame) 0 0
                [Empty])
      as (s' & Hs' & Hboards & _ & Hturn); [reflexivity..|].
    exists s'. split; [exact Hs'|].
    rewrite Hboards in Hturn. destruct Hturn as (Hp & _ & Hw).
    split; [exact Hp | exact Hw].
Defined.

Lemma handleMove_refused_iff_witness :
  exists s', App.handleMove noRewards freshGame 1 4 = App.Ok s'
             /\ s' <> freshGame.
Proof.
  destruct (handleMove_refused_iff noRewards freshGame 1 4
              (replicate 9 Empty))
    as (s' & Hs' & Hiff & _); [reflexivity|].
  exists s'. split; [exact Hs'|].
  intros Heq. apply Hiff in Heq. destruct Heq as [Hc|Hd].
  - apply Hc. reflexivity.
  - discriminate Hd.
Defined.

Lemma history_tail_is_live_witness :
  historyTracksBoards freshGame
  /\ exists s', App.handleMove noRewards freshGame 1 4 = App.Ok s'
                /\ historyTracksBoards s'.
Proof.
  destruct (history_tail_is_live noRewards) as (Hreset & Hmove & _ & _).
  split.
  - apply Hreset.
  - eexists. split; [reflexivity|].
    apply (Hmove freshGame 1 4); [reflexivity|].
    vm_compute. discriminate.
Defined.

(** ** The heuristic *)

Lemma countX_markedCount board pattern :
  Ai.countX board pattern = markedCount board pattern.
Proof.
  unfold Ai.countX, markedCount.
  assert (H : forall n,
    foldl (fun xCount i => if isX board i then S xCount else xCount) n pattern
    = n + length (filter (fun i => board !! i = Some Marked) pattern)).
  { induction pattern as [|i pattern IH]; intros n; simpl; [lia|].
    rewrite IH, filter_cons. unfold isX.
    destruct (board !! i) as [[]|]; case_decide; simpl; try done; lia. }
  by rewrite H.
Qed.

Lemma scanPatterns_contribution board size patterns boardScore :
  Ai.scanPatterns board (Z.of_nat size - 1) patterns boardScore
  = (boardScore + patternsContribution board size patterns)%Z.
Proof.
  revert boardScore.
  induction patterns as [|pattern rest IH]; intros boardScore.
  - unfold patternsContribution. simpl. lia.
  - simpl. rewrite countX_markedCount, !IH.
    unfold patternsContribution. simpl. rewrite filter_cons.
    destruct (Z.eqb_spec (Z.of_nat (markedCount board pattern))
                         (Z.of_nat size - 1)) as [H1|H1].
    + rewrite decide_True by done. simpl. lia.
    + rewrite decide_False by done.
      destruct (list_find _ rest) as [[k p]|]; simpl.
      * rewrite filter_cons.
        destruct (Z.eqb_spec (Z.of_nat (markedCount board pattern))
                             (Z.of_nat size - 1 - 1)) as [H2|H2].
        -- rewrite decide_True by lia. simpl. lia.
        -- rewrite decide_False by lia. lia.
      * destruct (Z.eqb_spec (Z.of_nat (markedCount board pattern))
                             (Z.of_nat size - 1 - 1)) as [H2|H2].
        -- rewrite decide_True by lia. simpl. lia.
        -- rewrite decide_False by lia. lia.
Qed.

(** C7. The heuristic score is the sum over the boards of the
    contribution of each: 0 for a dead board; for a board that is not
    dead, the patterns are scanned in catalog order, the first one with
    exactly [size - 1] Marked cells gives -10 and ends the scan, and
    each one before it with exactly [size - 2] Marked cells gives -1. *)
Theorem heuristic_sum_of_contributions
    (boards : list BoardState) (size : nat) :
  Ai.heuristic boards size = sumZ (boardContribution size <$> boards).
Proof.
  unfold Ai.heuristic.
  assert (H : forall score,
    foldl (fun score board =>
             if Ai.isBoardDead board size then score
             else (score + Ai.scanPatterns board (Z.of_nat size - 1)
                             (Ai.getWinPatterns size) 0)%Z) score boards
    = (score + sumZ (boardContribution size <$> boards))%Z).
  { induction boards as [|board rest IH]; intros score; csimpl; [lia|].
    rewrite IH. unfold boardContribution at 2.
    destruct (Ai.isBoardDead board size); [lia|].
    rewrite scanPatterns_contribution. lia. }
  by rewrite H.
Qed.

(** ** Minimax: the two base cases *)

Lemma allDead_Forall boards size :
  Ai.allDead boards size = true
  <-> Forall (fun board => Ai.isBoardDead board size = true) boards.
Proof.
  unfold Ai.allDead. induction boards as [|board rest IH]; simpl.
  - split; [constructor | done].
  - rewrite andb_true_iff, IH, Forall_cons. done.
Qed.

Lemma minimax_terminal depth boards isMaximizing size alpha beta :
  Ai.allDead boards size = true ->
  Ai.minimax depth boards isMaximizing size alpha beta
  = if isMaximizing then Num.NegInf else Num.PosInf.
Proof. intros H. destruct depth; simpl; by rewrite H. Qed.

Lemma minimax_cutoff boards isMaximizing size alpha beta :
  Ai.allDead boards size = false ->
  Ai.minimax 0 boards isMaximizing size alpha beta
  = Num.Fin (Ai.heuristic boards size).
Proof. intros H. simpl. by rewrite H. Qed.

(** C5. If every board is dead, [minimax] returns minus infinity when
    maximizing and plus infinity otherwise, whatever the depth and the
    window: neither the heuristic nor the moves of the position enter
    the result.  If some board is not dead and the depth is 0, it
    returns the heuristic score of the boards. *)
Theorem minimax_base_cases
    (boards : list BoardState) (depth : nat) (isMaximizing : bool)
    (size : nat) (alpha beta : Num.t) :
  (Forall (fun board => Ai.isBoardDead board size = true) boards ->
   Ai.minimax depth boards isMaximizing size alpha beta
   = if isMaximizing then Num.NegInf else Num.PosInf)
  /\ (~ Forall (fun board => Ai.isBoardDead board size = true) boards ->
      depth = 0 ->
      Ai.minimax depth boards isMaximizing size alpha beta
      = Num.Fin (Ai.heuristic boards size)).
Proof.
  split.
  - intros H. by apply minimax_terminal, allDead_Forall.
  - intros H ->. apply minimax_cutoff.
    destruct (Ai.allDead boards size) eqn:E; [|done].
    by apply allDead_Forall in E.
Qed.

Lemma minimax_base_cases_witness :
  Ai.minimax 3 [[Marked; Marked; Empty; Empty]] true 2
             (Num.Fin 5) (Num.Fin 7) = Num.NegInf
  /\ Ai.minimax 0 [[Marked; Empty; Empty; Empty; Empty; Empty;
                    Empty; Empty; Empty]] false 3
                Num.NegInf Num.PosInf = Num.Fin (-3).
Proof.
  split.
  - apply (minimax_base_cases [[Marked; Marked; Empty; Empty]] 3 true 2).
    repeat constructor.
  - apply (minimax_base_cases
             [[Marked; Empty; Empty; Empty; Empty; Empty; Empty; Empty; Empty]]
             0 false 3); [|reflexivity].
    intros H. apply Forall_inv in H. discriminate H.
Defined.

(** ** Legal moves *)

Lemma elem_of_emptyCells target cells start move :
  move ∈ Ai.emptyCells target cells start
  <-> boardIndex move = target
      /\ exists j, cellIndex move = start + j /\ cells !! j = Some Empty.
Proof.
  revert start. induction cells as [|c rest IH]; intros start; simpl.
  - rewrite elem_of_nil. split; [done|]. by intros (_ & j & _ & ?).
  - destruct c.
    + rewrite elem_of_cons, IH. split.
      * intros [->|(Hb & j & Hj & Hc)].
        -- split; [done|]. exists 0. simpl. split; [lia | done].
        -- split; [done|]. exists (S j). split; [lia | done].
      * intros (Hb & [|j] & Hj & Hc).
        -- left. destruct move as [b c]. simpl in *. f_equal; lia.
        -- right. split; [done|]. exists j. split; [lia | done].
    + rewrite IH. split.
      * intros (Hb & j & Hj & Hc). split; [done|].
        exists (S j). split; [lia | done].
      * intros (Hb & [|j] & Hj & Hc); [done|]. split; [done|].
        exists j. split; [lia | done].
Qed.

Lemma elem_of_candidateMoves boards size start move :
  move ∈ Ai.candidateMoves boards size start
  <-> exists j board,
        boardIndex move = start + j
        /\ boards !! j = Some board
        /\ Ai.isBoardDead board size = false
        /\ board !! cellIndex move = Some Empty.
Proof.
  revert start. induction boards as [|board rest IH]; intros start; simpl.
  - rewrite elem_of_nil. split; [done|]. by intros (j & b & _ & ? & _).
  - rewrite elem_of_app, IH. split.
    + intros [H|(j & b & Hj & Hb & Hd & Hc)].
      * destruct (Ai.isBoardDead board size) eqn:Hd;
          [by apply elem_of_nil in H|].
        apply elem_of_emptyCells in H as (Hb & j & Hj & Hc).
        exists 0, board. simpl in Hj. rewrite Hj.
        split; [lia | done].
      * exists (S j), b. split; [lia | done].
    + intros ([|j] & b & Hj & Hb & Hd & Hc); simpl in Hb.
      * left. injection Hb as ->. rewrite Hd.
        apply elem_of_emptyCells. split; [lia|].
        exists (cellIndex move). done.
      * right. exists j, b. split; [lia | done].
Qed.

Lemma insertMove_Permutation size a sorted :
  Ai.insertMove size a sorted ≡ₚ a :: sorted.
Proof.
  induction sorted as [|b rest IH]; simpl; [done|].
  destruct (Ai.staysBefore size a b); [done|].
  rewrite IH. apply Permutation_swap.
Qed.

Lemma sortMoves_Permutation size moves :
  Ai.sortMoves size moves ≡ₚ moves.
Proof.
  unfold Ai.sortMoves. induction moves as [|a rest IH]; simpl; [done|].
  by rewrite insertMove_Permutation, IH.
Qed.

Lemma elem_of_getValidMoves boards size move :
  move ∈ Ai.getValidMoves boards size <-> legalMove boards size move.
Proof.
  unfold Ai.getValidMoves, legalMove.
  rewrite sortMoves_Permutation, elem_of_candidateMoves. split.
  - intros (j & b & Hj & H). exists b. simpl in Hj. by rewrite Hj.
  - intros (b & H). by exists (boardIndex move), b.
Qed.

(** The moves that [updateBoards] is given are in range: it writes the
    mark into an existing cell of an existing board. *)
Lemma updateBoards_valid_move boards size move :
  move ∈ Ai.getValidMoves boards size ->
  exists board,
    boards !! boardIndex move = Some board
    /\ cellIndex move < length board
    /\ Ai.updateBoards boards move
       = <[boardIndex move := <[cellIndex move := Marked]> board]> boards.
Proof.
  intros (board & Hb & _ & Hc)%elem_of_getValidMoves.
  exists board. split; [done|]. split; [by eapply lookup_lt_Some|].
  unfold Ai.updateBoards. by rewrite Hb.
Qed.

Lemma search_in_range depth boards size : searchInRange depth boards size.
Proof.
  revert boards. induction depth as [|depth IH]; intros boards; [done|].
  intros move Hmove. split; [|apply IH].
  destruct (updateBoards_valid_move boards size move Hmove)
    as (board & Hb & Hc & _).
  by exists board.
Qed.

Lemma getValidMoves_nil boards size :
  Ai.getValidMoves boards size = []
  <-> Forall (fun board => Ai.isBoardDead board size = true
                           \/ fullBoard board) boards.
Proof.
  split.
  - intros Hnil. apply Forall_lookup. intros i board Hb.
    destruct (Ai.isBoardDead board size) eqn:Hd; [by left | right].
    apply Forall_lookup. intros j c Hc. destruct c; [|done].
    assert (H : mkMove i j ∈ Ai.getValidMoves boards size)
      by (apply elem_of_getValidMoves; by exists board).
    rewrite Hnil in H. by apply elem_of_nil in H.
  - intros Hall.
    destruct (Ai.getValidMoves boards size) as [|move rest] eqn:E; [done|].
    assert (H : move ∈ Ai.getValidMoves boards size)
      by (rewrite E; apply list_elem_of_here).
    apply elem_of_getValidMoves in H as (board & Hb & Hd & Hc).
    eapply Forall_lookup_1 in Hall as [Hdead|Hfull]; [| |exact Hb].
    + congruence.
    + eapply Forall_lookup_1 in Hfull; [|exact Hc]. done.
Qed.

(** ** Scores *)

Lemma bestMovesLoop_spec score moves bestScore bestMoves :
  Ai.bestMovesLoop score moves bestScore bestMoves
  = (if decide (bestScore
                = Num.max bestScore
                    (maxScore score (evaluatedMoves score moves)))
     then bestMoves else [])
    ++ filter (fun move =>
                 score move
                 = Num.max bestScore
                     (maxScore score (evaluatedMoves score moves)))
              (evaluatedMoves score moves).
Proof.
  revert bestScore bestMoves.
  induction moves as [|move rest IH]; intros bestScore bestMoves.
  - simpl. rewrite filter_nil, app_nil_r. by num_crush.
  - simpl. remember (score move) as v eqn:Hv.
    destruct (Num.eqb v Num.PosInf) eqn:Einf.
    + simpl. rewrite filter_cons, filter_nil, <- Hv.
      clear IH Hv. num_crush; by rewrite ?app_nil_r.
    + simpl. rewrite filter_cons, <- Hv.
      destruct (Num.ltb bestScore v) eqn:Elt;
        [|destruct (Num.eqb v bestScore) eqn:Eeq];
        simpl; rewrite IH; clear IH;
        remember (maxScore score (evaluatedMoves score rest)) as R eqn:HR;
        clear HR Hv.
      * assert (Num.max bestScore (Num.max v R) = Num.max v R) as ->
          by num_crush.
        rewrite (decide_False (P := bestScore = _))
          by (clear bestMoves; num_crush).
        simpl. by destruct (decide (v = Num.max v R)).
      * assert (v = bestScore) as -> by (clear bestMoves; num_crush).
        assert (Num.max bestScore (Num.max bestScore R)
                = Num.max bestScore R) as -> by num_crush.
        destruct (decide (bestScore = Num.max bestScore R)); simpl; [|done].
        by rewrite <- app_assoc.
      * assert (Num.max bestScore (Num.max v R) = Num.max bestScore R) as ->
          by (clear bestMoves; num_crush).
        rewrite (decide_False (P := v = _)); [done|].
        clear bestMoves. num_crush.
Qed.

Lemma bestMovesLoop_tiedBest score moves :
  Ai.bestMovesLoop score moves Num.NegInf [] = tiedBest score moves.
Proof.
  rewrite bestMovesLoop_spec. unfold tiedBest.
  assert (forall R, Num.max Num.NegInf R = R) as -> by (intros []; done).
  by destruct (decide _).
Qed.

Lemma evaluatedMoves_subseteq score moves :
  evaluatedMoves score moves ⊆ moves.
Proof.
  induction moves as [|move rest IH]; simpl; [done|].
  destruct (Num.eqb (score move) Num.PosInf).
  - intros m ->%list_elem_of_singleton. apply list_elem_of_here.
  - intros m [->|H]%elem_of_cons;
      [apply list_elem_of_here | by apply list_elem_of_further, IH].
Qed.

Lemma evaluatedMoves_nonempty score moves :
  moves <> [] -> evaluatedMoves score moves <> [].
Proof.
  destruct moves as [|move rest]; [done|]. intros _. simpl.
  by destruct (Num.eqb (score move) Num.PosInf).
Qed.

Lemma evaluatedMoves_singleton score move :
  evaluatedMoves score [move] = [move].
Proof. simpl. by destruct (Num.eqb (score move) Num.PosInf). Qed.

Lemma maxScore_attained score moves :
  moves <> [] ->
  exists move, move ∈ moves /\ score move = maxScore score moves.
Proof.
  induction moves as [|move rest IH]; [done|]. intros _.
  destruct rest as [|move' rest'].
  - exists move. split; [apply list_elem_of_here|].
    simpl. by destruct (score move).
  - destruct IH as (m & Hm & Hs); [done|].
    change (maxScore score (move :: move' :: rest'))
      with (Num.max (score move) (maxScore score (move' :: rest'))).
    rewrite <- Hs. unfold Num.max.
    destruct (Num.leb (score move) (score m)).
    + exists m. split; [by apply list_elem_of_further | done].
    + exists move. split; [apply list_elem_of_here | done].
Qed.

Lemma tiedBest_nonempty score moves :
  moves <> [] -> tiedBest score moves <> [].
Proof.
  intros Hne. unfold tiedBest.
  destruct (maxScore_attained score (evaluatedMoves score moves))
    as (m & Hm & Hs); [by apply evaluatedMoves_nonempty|].
  intros Hnil.
  assert (H : m ∈ filter
                (fun move => score move
                             = maxScore score (evaluatedMoves score moves))
                (evaluatedMoves score moves))
    by (by apply list_elem_of_filter).
  rewrite Hnil in H. by apply elem_of_nil in H.
Qed.

Lemma tiedBest_subseteq score moves : tiedBest score moves ⊆ moves.
Proof.
  intros m [_ H]%list_elem_of_filter. by apply evaluatedMoves_subseteq in H.
Qed.

Lemma tiedBest_singleton score move : tiedBest score [move] = [move].
Proof.
  pose proof (tiedBest_nonempty score [move] ltac:(done)) as Hne.
  unfold tiedBest in *. rewrite evaluatedMoves_singleton in *.
  rewrite filter_cons, filter_nil in *.
  by destruct (decide _).
Qed.

(** ** The random pick *)

Lemma randomIndex_lt random n : 0 < n -> randomIndex random n < n.
Proof.
  intros Hn. destruct random as [[p q] [H0 H1]].
  unfold randomIndex, Qle, Qlt in *. simpl in *.
  rewrite Pos.mul_1_r.
  assert (0 <= p * Z.of_nat n / Z.pos q < Z.of_nat n)%Z; [|lia].
  split.
  - apply Z.div_pos; nia.
  - apply Z.div_lt_upper_bound; nia.
Qed.

Lemma randomIndex_onto k n :
  k < n -> exists random, randomIndex random n = k.
Proof.
  intros Hk.
  assert (Hr : (0 <= Z.of_nat k # Pos.of_nat n)%Q
               /\ (Z.of_nat k # Pos.of_nat n < 1)%Q)
    by (unfold Qle, Qlt; simpl; lia).
  exists (mkRandom (Z.of_nat k # Pos.of_nat n) Hr).
  unfold randomIndex. simpl. rewrite Pos.mul_1_r.
  replace (Z.pos (Pos.of_nat n)) with (Z.of_nat n) by lia.
  rewrite Z.div_mul by lia. lia.
Qed.

(** ** [findBestMove] *)

Lemma findBestMove_no_moves random boards difficulty size numberOfBoards :
  Ai.getValidMoves boards size = [] ->
  Ai.findBestMove random boards difficulty size numberOfBoards = None.
Proof. intros H. unfold Ai.findBestMove. by rewrite H. Qed.

Lemma findBestMove_pick random boards difficulty size numberOfBoards :
  Ai.getValidMoves boards size <> [] ->
  Ai.findBestMove random boards difficulty size numberOfBoards
  = bestSet boards difficulty size numberOfBoards
      !! randomIndex random
           (length (bestSet boards difficulty size numberOfBoards))
  /\ exists move,
       Ai.findBestMove random boards difficulty size numberOfBoards
       = Some move
       /\ move ∈ bestSet boards difficulty size numberOfBoards.
Proof.
  intros Hne. unfold Ai.findBestMove, bestSet.
  destruct (Ai.getValidMoves boards size) as [|m0 rest] eqn:E; [done|].
  simpl length at 1. simpl Nat.eqb. cbv iota.
  rewrite bestMovesLoop_tiedBest. split; [done|].
  set (best := tiedBest _ _).
  assert (Hlen : 0 < length best).
  { destruct best eqn:Eb; [|simpl; lia].
    by apply tiedBest_nonempty in Eb. }
  destruct (lookup_lt_is_Some_2 best (randomIndex random (length best)))
    as [move Hmove]; [by apply randomIndex_lt|].
  exists move. split; [done|]. by eapply list_elem_of_lookup_2.
Qed.

(** C3. [findBestMove] always returns: either no move or a move, and
    every [updateBoards] of its search is given a move in range, so
    nothing in it throws.  It returns no move exactly when no legal
    move exists, which is when every board is dead or full; a move it
    returns is legal: its target board is not dead and its target cell
    is Empty. *)
Theorem findBestMove_none_iff_no_legal_move
    (random : Random) (boards : list BoardState)
    (difficulty size numberOfBoards : nat) :
  (Ai.findBestMove random boards difficulty size numberOfBoards = None
   <-> ~ exists move, legalMove boards size move)
  /\ (Ai.findBestMove random boards difficulty size numberOfBoards = None
      <-> Forall (fun board => Ai.isBoardDead board size = true
                               \/ fullBoard board) boards)
  /\ (forall move,
        Ai.findBestMove random boards difficulty size numberOfBoards
        = Some move ->
        legalMove boards size move)
  /\ searchInRange (S (Ai.getMaxDepth size numberOfBoards difficulty))
                   boards size.
Proof.
  assert (Hnone :
    Ai.findBestMove random boards difficulty size numberOfBoards = None
    <-> Ai.getValidMoves boards size = []).
  { split.
    - intros Hn.
      destruct (Ai.getValidMoves boards size) as [|m0 rest] eqn:E; [done|].
      destruct (findBestMove_pick random boards difficulty size numberOfBoards)
        as [_ (m & Hm & _)]; [by rewrite E | congruence].
    - apply findBestMove_no_moves. }
  split; [|split; [|split; [|apply search_in_range]]].
  - rewrite Hnone. split.
    + intros Hnil (m & Hm). apply elem_of_getValidMoves in Hm.
      rewrite Hnil in Hm. by apply elem_of_nil in Hm.
    + intros Hno.
      destruct (Ai.getValidMoves boards size) as [|m0 rest] eqn:E; [done|].
      exfalso. apply Hno. exists m0. apply elem_of_getValidMoves.
      rewrite E. apply list_elem_of_here.
  - rewrite Hnone. apply getValidMoves_nil.
  - intros move Hmove.
    destruct (Ai.getValidMoves boards size) as [|m0 rest] eqn:E.
    + rewrite findBestMove_no_moves in Hmove; done.
    + destruct (findBestMove_pick random boards difficulty size numberOfBoards)
        as [_ (m & Hm & Hin)]; [by rewrite E|].
      rewrite Hm in Hmove. injection Hmove as <-.
      apply elem_of_getValidMoves. by apply tiedBest_subseteq in Hin.
Qed.

Lemma findBestMove_none_iff_no_legal_move_witness :
  Ai.findBestMove randomZero [[Marked; Marked; Empty; Empty]] 1 2 1 = None
  /\ legalMove [[Empty; Empty; Empty; Empty]] 2 (mkMove 0 0).
Proof.
  split.
  - destruct (findBestMove_none_iff_no_legal_move randomZero
                [[Marked; Marked; Empty; Empty]] 1 2 1) as (_ & [_ Hnone] & _).
    apply Hnone. constructor; [left; reflexivity | constructor].
  - destruct (findBestMove_none_iff_no_legal_move randomZero
                [[Empty; Empty; Empty; Empty]] 1 2 1)
      as (_ & _ & Hlegal & _).
    apply Hlegal. reflexivity.
Defined.

(** The pick of [findBestMove] against the set its loop tracks. *)
Lemma findBestMove_among_bestSet
    (boards : list BoardState) (difficulty size numberOfBoards : nat) :
  (exists move, legalMove boards size move) ->
  (forall random, exists move,
      Ai.findBestMove random boards difficulty size numberOfBoards = Some move
      /\ move ∈ bestSet boards difficulty size numberOfBoards)
  /\ (forall move,
        move ∈ bestSet boards difficulty size numberOfBoards ->
        exists random,
          Ai.findBestMove random boards difficulty size numberOfBoards
          = Some move)
  /\ (forall only,
        Ai.getValidMoves boards size = [only] ->
        forall random,
          Ai.findBestMove random boards difficulty size numberOfBoards
          = Some only).
Proof.
  intros (m0 & Hm0).
  assert (Hne : Ai.getValidMoves boards size <> []).
  { apply elem_of_getValidMoves in Hm0. intros Hnil.
    rewrite Hnil in Hm0. by apply elem_of_nil in Hm0. }
  split; [|split].
  - intros random.
    by destruct (findBestMove_pick random boards difficulty size
                   numberOfBoards Hne).
  - intros move Hin.
    apply list_elem_of_lookup in Hin as [k Hk].
    destruct (randomIndex_onto k
                (length (bestSet boards difficulty size numberOfBoards)))
      as [random Hr]; [by eapply lookup_lt_Some|].
    exists random.
    destruct (findBestMove_pick random boards difficulty size
                numberOfBoards Hne) as [-> _].
    by rewrite Hr.
  - intros only Honly random.
    destruct (findBestMove_pick random boards difficulty size
                numberOfBoards Hne) as [_ (m & Hm & Hin)].
    unfold bestSet in Hin. rewrite Honly, tiedBest_singleton in Hin.
    apply list_elem_of_singleton in Hin. by subst.
Qed.


(** ** Alpha-beta against plain minimax *)

Lemma num_le_refl a : Num.le a a.
Proof. num_cases. Qed.

Lemma num_le_trans a b c : Num.le a b -> Num.le b c -> Num.le a c.
Proof. num_cases. Qed.

Lemma num_le_lt_trans a b c : Num.le a b -> Num.lt b c -> Num.lt a c.
Proof. num_cases. Qed.

Lemma num_lt_le_trans a b c : Num.lt a b -> Num.le b c -> Num.lt a c.
Proof. num_cases. Qed.

Lemma num_lt_le a b : Num.lt a b -> Num.le a b.
Proof. num_cases. Qed.

Lemma num_le_antisym a b : Num.le a b -> Num.le b a -> a = b.
Proof. num_cases. Qed.

Lemma num_lt_not_le a b : Num.lt a b -> Num.le b a -> False.
Proof. unfold Num.lt, Num.le. congruence. Qed.

Lemma num_le_or_lt a b : Num.le a b \/ Num.lt b a.
Proof. unfold Num.le, Num.lt. destruct (Num.leb a b); auto. Qed.

Lemma num_max_l a b : Num.le a (Num.max a b).
Proof. num_cases. Qed.

Lemma num_max_r a b : Num.le b (Num.max a b).
Proof. num_cases. Qed.

Lemma num_max_lub a b c : Num.le a c -> Num.le b c -> Num.le (Num.max a b) c.
Proof. unfold Num.max. by destruct (Num.leb a b). Qed.

Lemma num_max_lt a b c : Num.lt a c -> Num.lt b c -> Num.lt (Num.max a b) c.
Proof. unfold Num.max. by destruct (Num.leb a b). Qed.

Lemma num_max_left a b : Num.le b a -> Num.max a b = a.
Proof. num_cases. Qed.

Lemma num_max_right a b : Num.le a b -> Num.max a b = b.
Proof. unfold Num.le, Num.max. by intros ->. Qed.

Lemma num_max_assoc a b c : Num.max (Num.max a b) c = Num.max a (Num.max b c).
Proof. num_cases. Qed.

Lemma num_min_l a b : Num.le (Num.min a b) a.
Proof. num_cases. Qed.

Lemma num_min_r a b : Num.le (Num.min a b) b.
Proof. num_cases. Qed.

Lemma num_min_glb a b c : Num.le c a -> Num.le c b -> Num.le c (Num.min a b).
Proof. unfold Num.min. by destruct (Num.leb a b). Qed.

Lemma num_min_lt a b c : Num.lt c a -> Num.lt c b -> Num.lt c (Num.min a b).
Proof. unfold Num.min. by destruct (Num.leb a b). Qed.

Lemma num_min_left a b : Num.le a b -> Num.min a b = a.
Proof. unfold Num.le, Num.min. by intros ->. Qed.

Lemma num_min_right a b : Num.le b a -> Num.min a b = b.
Proof. num_cases. Qed.

Lemma num_min_assoc a b c : Num.min (Num.min a b) c = Num.min a (Num.min b c).
Proof. num_cases. Qed.

Lemma foldl_max_ge acc values : Num.le acc (foldl Num.max acc values).
Proof.
  revert acc. induction values as [|v values IH]; intros acc; simpl.
  - apply num_le_refl.
  - eapply num_le_trans; [apply num_max_l | apply IH].
Qed.

Lemma foldl_min_le acc values : Num.le (foldl Num.min acc values) acc.
Proof.
  revert acc. induction values as [|v values IH]; intros acc; simpl.
  - apply num_le_refl.
  - eapply num_le_trans; [apply IH | apply num_min_l].
Qed.

Lemma failSoft_exact r alpha beta : failSoft r r alpha beta.
Proof. repeat split; intros; apply num_le_refl. Qed.

Lemma failSoft_le r p alpha beta :
  failSoft r p alpha beta -> Num.lt r beta -> Num.le p r.
Proof.
  intros (H1 & _ & H3) Hrb.
  destruct (num_le_or_lt r alpha) as [Hra|Hra]; [by apply H1|].
  rewrite (H3 Hra Hrb). apply num_le_refl.
Qed.

Lemma failSoft_ge r p alpha beta :
  failSoft r p alpha beta -> Num.lt alpha r -> Num.le r p.
Proof.
  intros (_ & H2 & H3) Hra.
  destruct (num_le_or_lt beta r) as [Hrb|Hrb]; [by apply H2|].
  rewrite (H3 Hra Hrb). apply num_le_refl.
Qed.

Lemma minimaxLoop_max child pv moves alpha0 beta :
  (forall move alpha,
      move ∈ moves -> Num.lt alpha beta ->
      failSoft (child move alpha beta) (pv move) alpha beta) ->
  forall bestValue alpha pacc,
    Num.lt alpha beta ->
    alpha = Num.max alpha0 bestValue ->
    Num.le pacc bestValue ->
    (Num.lt alpha0 bestValue -> pacc = bestValue) ->
    failSoft (Ai.minimaxLoop child true moves bestValue alpha beta)
             (foldl Num.max pacc (pv <$> moves)) alpha0 beta.
Proof.
  induction moves as [|move rest IH];
    intros Hchild bestValue alpha pacc Hwin Halpha Hle Heq.
  - simpl. split; [done|]. split; [|intros H _; by apply Heq].
    intros Hb. exfalso. apply (num_lt_not_le alpha beta Hwin).
    eapply num_le_trans; [exact Hb|]. subst alpha. apply num_max_r.
  - csimpl.
    pose proof (Hchild move alpha (list_elem_of_here _ _) Hwin) as Hv.
    remember (child move alpha beta) as v eqn:Ev.
    remember (pv move) as pm eqn:Epm.
    assert (Hba : Num.le bestValue alpha) by (subst alpha; apply num_max_r).
    assert (H0a : Num.le alpha0 alpha) by (subst alpha; apply num_max_l).
    destruct (Num.leb beta (Num.max alpha v)) eqn:Hcut.
    + assert (Hbv : Num.le beta v).
      { destruct (num_le_or_lt beta v) as [|Hvb]; [done|]. exfalso.
        apply (num_lt_not_le _ _ (num_max_lt alpha v beta Hwin Hvb)). exact Hcut. }
      assert (Hav : Num.lt alpha v) by (by eapply num_lt_le_trans).
      rewrite (num_max_right bestValue v)
        by (eapply num_le_trans; [exact Hba | by apply num_lt_le]).
      assert (HvP : Num.le v (foldl Num.max (Num.max pacc pm) (pv <$> rest))).
      { eapply num_le_trans; [by eapply failSoft_ge|].
        eapply num_le_trans; [apply num_max_r | apply foldl_max_ge]. }
      split; [|split].
      * intros Hv0. exfalso. apply (num_lt_not_le alpha v Hav).
        by eapply num_le_trans.
      * done.
      * intros _ Hvb. exfalso. by apply (num_lt_not_le v beta).
    + assert (Hvb : Num.lt v beta).
      { eapply num_le_lt_trans; [apply num_max_r | exact Hcut]. }
      assert (Hpv : Num.le pm v) by (by eapply failSoft_le).
      apply IH.
      * intros m a Hm Ha. apply Hchild; [by apply list_elem_of_further|done].
      * exact Hcut.
      * subst alpha. apply num_max_assoc.
      * apply num_max_lub; (eapply num_le_trans; [eassumption|]);
          [apply num_max_l | apply num_max_r].
      * intros H0.
        destruct (num_le_or_lt v bestValue) as [Hvbest|Hbestv].
        -- rewrite (num_max_left bestValue v) in * by done.
           rewrite (Heq H0). apply num_max_left. by eapply num_le_trans.
        -- rewrite (num_max_right bestValue v) in * by (by apply num_lt_le).
           assert (Hav : Num.lt alpha v) by (subst alpha; by apply num_max_lt).
           destruct Hv as (_ & _ & H3). rewrite (H3 Hav Hvb).
           apply num_max_right. eapply num_le_trans; [exact Hle | by apply num_lt_le].
Qed.

Lemma minimaxLoop_min child pv moves alpha beta0 :
  (forall move beta,
      move ∈ moves -> Num.lt alpha beta ->
      failSoft (child move alpha beta) (pv move) alpha beta) ->
  forall bestValue beta pacc,
    Num.lt alpha beta ->
    beta = Num.min beta0 bestValue ->
    Num.le bestValue pacc ->
    (Num.lt bestValue beta0 -> pacc = bestValue) ->
    failSoft (Ai.minimaxLoop child false moves bestValue alpha beta)
             (foldl Num.min pacc (pv <$> moves)) alpha beta0.
Proof.
  induction moves as [|move rest IH];
    intros Hchild bestValue beta pacc Hwin Hbeta Hle Heq.
  - simpl. split; [|split; [done | intros _ H; by apply Heq]].
    intros Ha. exfalso. apply (num_lt_not_le alpha beta Hwin).
    eapply num_le_trans; [|exact Ha]. subst beta. apply num_min_r.
  - csimpl.
    pose proof (Hchild move beta (list_elem_of_here _ _) Hwin) as Hv.
    remember (child move alpha beta) as v eqn:Ev.
    remember (pv move) as pm eqn:Epm.
    assert (Hbb : Num.le beta bestValue) by (subst beta; apply num_min_r).
    assert (Hb0 : Num.le beta beta0) by (subst beta; apply num_min_l).
    destruct (Num.leb (Num.min beta v) alpha) eqn:Hcut.
    + assert (Hva : Num.le v alpha).
      { destruct (num_le_or_lt v alpha) as [|Hav]; [done|]. exfalso.
        apply (num_lt_not_le _ _ (num_min_lt beta v alpha Hwin Hav)). exact Hcut. }
      assert (Hvb : Num.lt v beta) by (by eapply num_le_lt_trans).
      rewrite (num_min_right bestValue v)
        by (eapply num_le_trans; [by apply num_lt_le | exact Hbb]).
      assert (HPv : Num.le (foldl Num.min (Num.min pacc pm) (pv <$> rest)) v).
      { eapply num_le_trans; [apply foldl_min_le|].
        eapply num_le_trans; [apply num_min_r | by eapply failSoft_le]. }
      split; [|split].
      * done.
      * intros H0v. exfalso. apply (num_lt_not_le v beta Hvb).
        by eapply num_le_trans.
      * intros Hav _. exfalso. by apply (num_lt_not_le alpha v).
    + assert (Hav : Num.lt alpha v).
      { eapply num_lt_le_trans; [exact Hcut | apply num_min_r]. }
      assert (Hvp : Num.le v pm) by (by eapply failSoft_ge).
      apply IH.
      * intros m b Hm Hb. apply Hchild; [by apply list_elem_of_further|done].
      * exact Hcut.
      * subst beta. apply num_min_assoc.
      * apply num_min_glb; (eapply num_le_trans; [|eassumption]);
          [apply num_min_l | apply num_min_r].
      * intros H0.
        destruct (num_le_or_lt bestValue v) as [Hbestv|Hvbest].
        -- rewrite (num_min_left bestValue v) in * by done.
           rewrite (Heq H0). apply num_min_left. by eapply num_le_trans.
        -- rewrite (num_min_right bestValue v) in * by (by apply num_lt_le).
           assert (Hvb : Num.lt v beta) by (subst beta; by apply num_min_lt).
           destruct Hv as (_ & _ & H3). rewrite (H3 Hav Hvb).
           apply num_min_right. eapply num_le_trans; [|exact Hle]. by apply num_lt_le.
Qed.

Lemma minimax_failSoft depth :
  forall boards isMaximizing size alpha beta,
    Num.lt alpha beta ->
    failSoft (Ai.minimax depth boards isMaximizing size alpha beta)
             (minimaxPlain depth boards isMaximizing size) alpha beta.
Proof.
  induction depth as [|depth IH]; intros boards isMaximizing size alpha beta Hwin.
  - simpl. destruct (Ai.allDead boards size); apply failSoft_exact.
  - simpl. destruct (Ai.allDead boards size); [apply failSoft_exact|].
    destruct isMaximizing.
    + apply (minimaxLoop_max _
               (fun move => minimaxPlain depth (Ai.updateBoards boards move)
                                         false size)).
      * intros move a _ Ha. by apply IH.
      * done.
      * by destruct alpha.
      * done.
      * intros H. exfalso. revert H. unfold Num.lt. by destruct alpha.
    + apply (minimaxLoop_min _
               (fun move => minimaxPlain depth (Ai.updateBoards boards move)
                                         true size)).
      * intros move b _ Hb. by apply IH.
      * done.
      * by destruct beta.
      * done.
      * intros H. exfalso. revert H. unfold Num.lt. by destruct beta.
Qed.

(** C6. Searched with the full window (alpha minus infinity, beta plus
    infinity), the alpha-beta minimax returns the value of plain
    minimax, for every position, depth and side. *)
Theorem minimax_full_window_is_plain
    (boards : list BoardState) (depth : nat) (isMaximizing : bool)
    (size : nat) :
  Ai.minimax depth boards isMaximizing size Num.NegInf Num.PosInf
  = minimaxPlain depth boards isMaximizing size.
Proof.
  destruct (minimax_failSoft depth boards isMaximizing size
              Num.NegInf Num.PosInf) as (H1 & H2 & H3); [done|].
  remember (Ai.minimax depth boards isMaximizing size Num.NegInf Num.PosInf)
    as r eqn:Er.
  remember (minimaxPlain depth boards isMaximizing size) as p eqn:Ep.
  clear Er Ep. destruct r as [|z|].
  - specialize (H1 eq_refl). by destruct p.
  - symmetry. by apply H3.
  - specialize (H2 eq_refl). by destruct p.
Qed.

(** ** The move returned, against the minimax scores *)

Lemma moveScore_is_plainScore boards depth size move :
  Ai.moveScore boards depth size move = plainScore boards depth size move.
Proof.
  unfold Ai.moveScore, plainScore.
  change (withMark boards (boardIndex move) (cellIndex move))
    with (Ai.updateBoards boards move).
  generalize (Ai.updateBoards boards move). intros newBoards.
  destruct (minimax_failSoft depth newBoards false size
              Num.NegInf Num.PosInf) as (H1 & H2 & H3); [done|].
  remember (Ai.minimax depth newBoards false size Num.NegInf Num.PosInf)
    as r eqn:Er.
  remember (minimaxPlain depth newBoards false size) as p eqn:Ep.
  clear Er Ep. destruct r as [|z|].
  - specialize (H1 eq_refl). by destruct p.
  - symmetry. by apply H3.
  - specialize (H2 eq_refl). by destruct p.
Qed.

Lemma tiedBest_pointwise score score' moves :
  (forall move, score move = score' move) ->
  tiedBest score moves = tiedBest score' moves.
Proof.
  intros Heq. unfold tiedBest.
  assert (Hev : evaluatedMoves score moves = evaluatedMoves score' moves).
  { induction moves as [|m rest IH]; simpl; [done|].
    by rewrite Heq, IH. }
  rewrite <- Hev.
  assert (Hmax : forall l, maxScore score l = maxScore score' l).
  { induction l as [|m rest IH]; simpl; [done|]. by rewrite Heq, IH. }
  rewrite <- Hmax.
  generalize (maxScore score (evaluatedMoves score moves)). intros best.
  generalize (evaluatedMoves score moves). intros l.
  induction l as [|m rest IH]; [done|].
  rewrite !filter_cons, IH. by rewrite (Heq m).
Qed.

Lemma bestSet_is_tiedForBest boards difficulty size numberOfBoards :
  bestSet boards difficulty size numberOfBoards
  = tiedForBest boards difficulty size numberOfBoards.
Proof.
  unfold bestSet, tiedForBest. apply tiedBest_pointwise.
  intros move. apply moveScore_is_plainScore.
Qed.

Lemma maxScore_ge score moves move :
  move ∈ moves -> Num.le (score move) (maxScore score moves).
Proof.
  induction moves as [|m rest IH]; intros Hin.
  - by apply elem_of_nil in Hin.
  - change (maxScore score (m :: rest))
      with (Num.max (score m) (maxScore score rest)).
    apply elem_of_cons in Hin as [->|Hin]; [apply num_max_l|].
    eapply num_le_trans; [by apply IH | apply num_max_r].
Qed.

Lemma tiedBest_maximal score moves move :
  move ∈ tiedBest score moves
  <-> move ∈ evaluatedMoves score moves
      /\ forall other,
           other ∈ evaluatedMoves score moves ->
           Num.le (score other) (score move).
Proof.
  unfold tiedBest. rewrite list_elem_of_filter. split.
  - intros [Hmax Hin]. split; [done|]. intros other Hother.
    rewrite Hmax. by apply maxScore_ge.
  - intros [Hin Hall]. split; [|done].
    destruct (maxScore_attained score (evaluatedMoves score moves))
      as (top & Htop & Hs).
    { intros Hnil. rewrite Hnil in Hin. by apply elem_of_nil in Hin. }
    apply num_le_antisym; [by apply maxScore_ge|].
    rewrite <- Hs. by apply Hall.
Qed.

(** C4. The score [findBestMove] gives a move is the value [minimax]
    returns for the boards after that move, and that value is the plain
    minimax value.  In a position with a legal move, whatever the
    random value, [findBestMove] returns a member of the tied-best set:
    the evaluated moves (all up to and including the first that scores
    plus infinity) whose plain minimax score no evaluated move exceeds.
    Every member of that set is returned for some random value.  With
    exactly one legal move, that move is returned. *)
Theorem findBestMove_random_among_tied
    (boards : list BoardState) (difficulty size numberOfBoards : nat) :
  (exists move, legalMove boards size move) ->
  let depth := Ai.getMaxDepth size numberOfBoards difficulty in
  let score := plainScore boards depth size in
  let evaluated := evaluatedMoves score (Ai.getValidMoves boards size) in
  let best := tiedForBest boards difficulty size numberOfBoards in
  (forall move,
      Ai.minimax depth (Ai.updateBoards boards move) false size
                 Num.NegInf Num.PosInf
      = score move)
  /\ (forall move,
        move ∈ best
        <-> move ∈ evaluated
            /\ forall other,
                 other ∈ evaluated -> Num.le (score other) (score move))
  /\ (forall random, exists move,
        Ai.findBestMove random boards difficulty size numberOfBoards
        = Some move
        /\ move ∈ best)
  /\ (forall move,
        move ∈ best ->
        exists random,
          Ai.findBestMove random boards difficulty size numberOfBoards
          = Some move)
  /\ (forall only,
        Ai.getValidMoves boards size = [only] ->
        forall random,
          Ai.findBestMove random boards difficulty size numberOfBoards
          = Some only).
Proof.
  intros Hlegal depth score evaluated best.
  destruct (findBestMove_among_bestSet boards difficulty size numberOfBoards
              Hlegal) as (Hin & Honto & Honly).
  rewrite bestSet_is_tiedForBest in Hin, Honto.
  split; [|split; [|split; [|split]]].
  - intros move. apply (moveScore_is_plainScore boards depth size move).
  - intros move. apply tiedBest_maximal.
  - exact Hin.
  - exact Honto.
  - exact Honly.
Qed.

Lemma findBestMove_random_among_tied_witness :
  (exists move,
      Ai.findBestMove randomZero tieFixture 1 4 5 = Some move
      /\ move ∈ [mkMove 4 6; mkMove 4 9; mkMove 4 7; mkMove 4 13])
  /\ (exists random,
        Ai.findBestMove random tieFixture 1 4 5 = Some (mkMove 4 13)).
Proof.
  assert (E : tiedForBest tieFixture 1 4 5
              = [mkMove 4 6; mkMove 4 9; mkMove 4 7; mkMove 4 13])
    by (vm_compute; reflexivity).
  destruct (findBestMove_random_among_tied tieFixture 1 4 5)
    as (_ & _ & Hin & Honto & _).
  - exists (mkMove 4 5),
      [Marked; Marked; Empty; Empty; Marked; Empty; Empty; Empty;
       Empty; Empty; Marked; Empty; Empty; Empty; Empty; Empty].
    repeat split; reflexivity.
  - rewrite E in Hin, Honto. split; [apply Hin|].
    apply Honto. repeat constructor.
Defined.

(** * Further properties of the code *)

(** ** Dead boards, line by line *)

Lemma isX_true (board : BoardState) i :
  isX board i = true <-> board !! i = Some Marked.
Proof.
  unfold isX. destruct (board !! i) as [[]|]; split; (done || congruence).
Qed.

Lemma forallb_seq (g : nat -> bool) (s n : nat) :
  forallb g (seq s n) = true <-> forall j, s <= j < s + n -> g j = true.
Proof.
  revert s. induction n as [|n IH]; intros s; simpl.
  - split; [intros _ j Hj; lia | done].
  - rewrite andb_true_iff, IH. split.
    + intros [Hs Hrest] j Hj.
      destruct (decide (j = s)) as [->|]; [done|]. apply Hrest. lia.
    + intros H. split; [apply H; lia|]. intros j Hj. apply H. lia.
Qed.

Lemma existsb_seq (g : nat -> bool) (s n : nat) :
  existsb g (seq s n) = true <-> exists j, s <= j < s + n /\ g j = true.
Proof.
  revert s. induction n as [|n IH]; intros s; simpl.
  - split; [done | intros (j & Hj & _); lia].
  - rewrite orb_true_iff, IH. split.
    + intros [Hs|(j & Hj & Hg)]; [exists s; split; [lia|done]|].
      exists j. split; [lia|done].
    + intros (j & Hj & Hg).
      destruct (decide (j = s)) as [->|]; [by left|].
      right. exists j. split; [lia|done].
Qed.

Lemma every_line (board : BoardState) (f : nat -> nat) (size : nat) :
  forallb (isX board) (f <$> seq 0 size) = true
  <-> forall j, j < size -> board !! f j = Some Marked.
Proof.
  rewrite forallb_fmap, forallb_seq. split.
  - intros H j Hj. apply isX_true, H. lia.
  - intros H j Hj. apply isX_true, H. lia.
Qed.

Lemma ai_isBoardDead_lines (board : BoardState) (size : nat) :
  Ai.isBoardDead board size = true
  <-> (exists i, i < size
         /\ forall j, j < size -> board !! (i * size + j) = Some Marked)
      \/ (exists i, i < size
            /\ forall j, j < size -> board !! (i + j * size) = Some Marked)
      \/ (forall i, i < size -> board !! (i * (size + 1)) = Some Marked)
      \/ (forall i, i < size ->
            board !! ((i + 1) * (size - 1)) = Some Marked).
Proof.
  unfold Ai.isBoardDead.
  rewrite getWinPatterns_unfold, existsb_app, existsb_pairs.
  simpl existsb at 2. rewrite orb_false_r, !orb_true_iff, existsb_seq.
  unfold diagPattern, antiDiagPattern. rewrite !every_line.
  split.
  - intros [(i & Hi & Hrc)|[Hd|Ha]].
    + apply orb_true_iff in Hrc as [Hr|Hc].
      * left. exists i. split; [lia|]. by apply every_line.
      * right. left. exists i. split; [lia|]. by apply every_line.
    + right. right. by left.
    + right. right. by right.
  - intros [(i & Hi & Hr)|[(i & Hi & Hc)|[Hd|Ha]]].
    + left. exists i. split; [lia|]. apply orb_true_iff. left.
      by apply every_line.
    + left. exists i. split; [lia|]. apply orb_true_iff. right.
      by apply every_line.
    + right. by left.
    + right. by right.
Qed.

(** X1. A board is dead for the search module exactly when one of its
    rows, one of its columns, its main diagonal or its anti-diagonal
    holds a mark in every cell, in row-major coordinates. *)
Theorem isBoardDead_iff_full_line (board : BoardState) (size : nat) :
  Ai.isBoardDead board size = true
  <-> (exists row, row < size
         /\ forall col, col < size ->
              board !! (row * size + col) = Some Marked)
      \/ (exists col, col < size
            /\ forall row, row < size ->
                 board !! (col + row * size) = Some Marked)
      \/ (forall i, i < size -> board !! (i * (size + 1)) = Some Marked)
      \/ (forall i, i < size ->
            board !! ((i + 1) * (size - 1)) = Some Marked).
Proof. apply ai_isBoardDead_lines. Qed.

(** X2. On a board of [size * size] cells the dead-board test of the
    component (slices and cell reads) and the one of the search module
    (pattern catalog) give the same answer. *)
Theorem isBoardDead_component_agrees_with_search
    (size : nat) (board : BoardState) :
  length board = size * size ->
  App.isBoardDead size board = Ai.isBoardDead board size.
Proof. apply isBoardDead_agree. Qed.

Lemma isBoardDead_component_agrees_with_search_witness :
  App.isBoardDead 3 [Marked; Empty; Empty; Empty; Marked; Empty;
                     Empty; Empty; Marked]
  = Ai.isBoardDead [Marked; Empty; Empty; Empty; Marked; Empty;
                    Empty; Empty; Marked] 3.
Proof.
  apply (isBoardDead_component_agrees_with_search 3). reflexivity.
Defined.

(** ** Fresh games, full boards and the edge length 0 *)

Lemma empty_grid_not_dead (size : nat) :
  1 <= size -> Ai.isBoardDead (replicate (size * size) Empty) size = false.
Proof.
  intros Hsize.
  destruct (Ai.isBoardDead _ size) eqn:E; [|done]. exfalso.
  apply ai_isBoardDead_lines in E
    as [(i & Hi & H)|[(i & Hi & H)|[H|H]]];
    specialize (H 0 ltac:(lia));
    apply lookup_replicate in H as [? _]; done.
Qed.

Lemma full_board_dead (size : nat) (board : BoardState) :
  1 <= size -> length board = size * size -> fullBoard board ->
  Ai.isBoardDead board size = true.
Proof.
  intros Hsize Hlen Hfull. apply ai_isBoardDead_lines. left.
  exists 0. split; [lia|]. intros j Hj.
  destruct (lookup_lt_is_Some_2 board (0 * size + j)) as [c Hc]; [nia|].
  rewrite Hc. f_equal. eapply Forall_lookup_1 in Hfull; [|exact Hc]. done.
Qed.

Lemma length_emptyCells_replicate target k start :
  length (Ai.emptyCells target (replicate k Empty) start) = k.
Proof.
  revert start. induction k as [|k IH]; intros start; simpl; [done|].
  by rewrite IH.
Qed.

Lemma length_candidateMoves_fresh num k size start :
  Ai.isBoardDead (replicate k Empty) size = false ->
  length (Ai.candidateMoves (replicate num (replicate k Empty)) size start)
  = num * k.
Proof.
  intros Hlive. revert start.
  induction num as [|num IH]; intros start; simpl; [done|].
  rewrite Hlive, length_app, length_emptyCells_replicate, IH. done.
Qed.

(** X3. A game reset to [num] boards of edge [size >= 1] has [num]
    boards of [size * size] cells, none of them dead for either test,
    and offers [num * size * size] valid moves; with at least one board
    it is not over. *)
Theorem resetGame_fresh_position
    (num size : nat) (s : App.State) :
  1 <= size ->
  let fresh := App.boards (App.resetGame num size s) in
  length fresh = num
  /\ wellFormedBoards size fresh
  /\ Forall (fun board => App.isBoardDead size board = false
                          /\ Ai.isBoardDead board size = false) fresh
  /\ length (Ai.getValidMoves fresh size) = num * (size * size)
  /\ (1 <= num -> forallb (App.isBoardDead size) fresh = false).
Proof.
  intros Hsize fresh. subst fresh. simpl.
  pose proof (empty_grid_not_dead size Hsize) as Hlive.
  assert (Happ : App.isBoardDead size (replicate (size * size) Empty) = false).
  { rewrite isBoardDead_agree; [done|]. by rewrite length_replicate. }
  split; [by rewrite length_replicate|]. split; [|split; [|split]].
  - apply Forall_replicate. by rewrite length_replicate.
  - by apply Forall_replicate.
  - unfold Ai.getValidMoves. rewrite sortMoves_Permutation.
    by apply length_candidateMoves_fresh.
  - intros Hnum. destruct num as [|num]; [lia|]. simpl. by rewrite Happ.
Qed.

Lemma resetGame_fresh_position_witness :
  length (Ai.getValidMoves (App.boards freshGame) 3) = 27.
Proof.
  apply (resetGame_fresh_position 3 3 (App.initial 1000 0)). lia.
Defined.

(** X4. With edge length 0 every board counts as dead for both tests:
    there is no valid move, [findBestMove] returns no move, and
    [handleMove] refuses every move on an existing board. *)
Theorem edge_length_zero_is_dead
    (calc : bool -> nat -> nat -> nat -> App.Rewards)
    (random : Random) (boards : list BoardState)
    (difficulty numberOfBoards : nat) :
  (forall board, Ai.isBoardDead board 0 = true
                 /\ App.isBoardDead 0 board = true)
  /\ Ai.getValidMoves boards 0 = []
  /\ Ai.findBestMove random boards difficulty 0 numberOfBoards = None
  /\ (forall s boardIndex cellIndex,
        App.boardSize s = 0 ->
        is_Some (App.boards s !! boardIndex) ->
        App.handleMove calc s boardIndex cellIndex = App.Ok s).
Proof.
  assert (Hnil : Ai.getValidMoves boards 0 = []).
  { apply getValidMoves_nil, Forall_forall. intros board _. by left. }
  split; [done|]. split; [done|]. split.
  - by apply findBestMove_no_moves.
  - intros s bi ci Hsize [target Hb].
    apply (handleMove_refused calc s bi ci target Hb).
    right. by rewrite Hsize.
Qed.

Lemma edge_length_zero_is_dead_witness :
  App.handleMove noRewards (App.setBoardSize 0 freshGame) 1 4
  = App.Ok (App.setBoardSize 0 freshGame).
Proof.
  destruct (edge_length_zero_is_dead noRewards randomZero [] 1 1)
    as (_ & _ & _ & H).
  apply H; [reflexivity|]. eexists. reflexivity.
Defined.

(** X5. On boards of [size * size] cells with [size >= 1], a board
    without an Empty cell is dead; so there is no valid move exactly
    when every board is dead, and [findBestMove] returns no move exactly
    in the terminal positions of [minimax]. *)
Theorem no_valid_move_iff_all_dead
    (random : Random) (boards : list BoardState)
    (difficulty size numberOfBoards : nat) :
  1 <= size ->
  wellFormedBoards size boards ->
  (forall board, board ∈ boards -> fullBoard board ->
                 Ai.isBoardDead board size = true)
  /\ (Ai.getValidMoves boards size = [] <-> Ai.allDead boards size = true)
  /\ (Ai.findBestMove random boards difficulty size numberOfBoards = None
      <-> Ai.allDead boards size = true).
Proof.
  intros Hsize Hwf.
  assert (Hfull : forall board, board ∈ boards -> fullBoard board ->
                                Ai.isBoardDead board size = true).
  { intros board Hin Hf. apply full_board_dead; [done| |done].
    by eapply Forall_forall in Hwf. }
  assert (Hnil : Ai.getValidMoves boards size = []
                 <-> Ai.allDead boards size = true).
  { rewrite getValidMoves_nil, allDead_Forall, !Forall_forall. split.
    - intros H board Hin. destruct (H board Hin); [done | by apply Hfull].
    - intros H board Hin. left. by apply H. }
  split; [done|]. split; [done|]. rewrite <- Hnil. split.
  - intros Hnone.
    destruct (Ai.getValidMoves boards size) as [|m0 rest] eqn:E; [done|].
    destruct (findBestMove_pick random boards difficulty size numberOfBoards)
      as [_ (m & Hm & _)]; [by rewrite E | congruence].
  - apply findBestMove_no_moves.
Qed.

Lemma no_valid_move_iff_all_dead_witness :
  Ai.findBestMove randomZero
    [[Marked; Marked; Empty; Empty]; [Marked; Empty; Empty; Marked]] 1 2 2
  = None.
Proof.
  destruct (no_valid_move_iff_all_dead randomZero
              [[Marked; Marked; Empty; Empty]; [Marked; Empty; Empty; Marked]]
              1 2 2) as (_ & _ & [_ H]).
  - lia.
  - repeat constructor.
  - apply H. reflexivity.
Defined.

(** ** The order of the valid moves *)

Lemma NoDup_emptyCells target cells start :
  NoDup (Ai.emptyCells target cells start).
Proof.
  revert start. induction cells as [|c rest IH]; intros start; simpl.
  - constructor.
  - destruct c; [|apply IH]. constructor; [|apply IH].
    intros (_ & j & Hj & _)%elem_of_emptyCells. simpl in Hj. lia.
Qed.

Lemma NoDup_candidateMoves boards size start :
  NoDup (Ai.candidateMoves boards size start).
Proof.
  revert start. induction boards as [|board rest IH]; intros start; simpl.
  - constructor.
  - apply NoDup_app. split; [|split; [|apply IH]].
    + destruct (Ai.isBoardDead board size);
        [constructor | apply NoDup_emptyCells].
    + intros move Hmove (j & b & Hj & _)%elem_of_candidateMoves.
      destruct (Ai.isBoardDead board size);
        [by apply elem_of_nil in Hmove|].
      apply elem_of_emptyCells in Hmove as [Hb _]. lia.
Qed.

Lemma descending_insertMove size a sorted :
  Forall (fun m => cellIndex m < size * size) (a :: sorted) ->
  descending (moveKey size) sorted ->
  descending (moveKey size) (Ai.insertMove size a sorted).
Proof.
  induction sorted as [|b rest IH]; intros Hin Hsorted; simpl.
  - split; [constructor | done].
  - apply Forall_cons in Hin as [Ha Hrest].
    pose proof Hrest as [Hb Hrest']%Forall_cons.
    destruct Hsorted as [Hle Hsorted].
    assert (Hkey : Ai.staysBefore size a b
                   = (moveKey size b <=? moveKey size a)%Z).
    { unfold Ai.staysBefore, moveKey, Ai.getCellValue2.
      destruct (Nat.ltb_spec (cellIndex b) (size * size)); [|lia].
      destruct (Nat.ltb_spec (cellIndex a) (size * size)); [|lia].
      simpl. apply eq_true_iff_eq. rewrite !Z.leb_le. lia. }
    rewrite Hkey. destruct (Z.leb_spec (moveKey size b) (moveKey size a)).
    + split; [|by split]. constructor; [done|].
      eapply Forall_impl; [exact Hle|]. simpl. intros m Hm. lia.
    + split.
      * rewrite insertMove_Permutation. constructor; [lia | done].
      * apply IH; [by constructor | done].
Qed.

Lemma descending_sortMoves size moves :
  Forall (fun m => cellIndex m < size * size) moves ->
  descending (moveKey size) (Ai.sortMoves size moves).
Proof.
  induction moves as [|a rest IH]; intros Hin; [done|].
  change (Ai.sortMoves size (a :: rest))
    with (Ai.insertMove size a (Ai.sortMoves size rest)).
  apply Forall_cons in Hin as [Ha Hrest].
  apply descending_insertMove; [|by apply IH].
  constructor; [done|]. by rewrite sortMoves_Permutation.
Qed.

(** X6. [getValidMoves] lists the legal moves, each exactly once; on
    boards of [size * size] cells the list is in order of positional
    value, no move coming after one whose target cell has a smaller
    value (centre first). *)
Theorem getValidMoves_distinct_and_ordered
    (boards : list BoardState) (size : nat) :
  NoDup (Ai.getValidMoves boards size)
  /\ (forall move,
        move ∈ Ai.getValidMoves boards size <-> legalMove boards size move)
  /\ (wellFormedBoards size boards ->
      descending (moveKey size) (Ai.getValidMoves boards size)).
Proof.
  split; [|split].
  - unfold Ai.getValidMoves. rewrite sortMoves_Permutation.
    apply NoDup_candidateMoves.
  - apply elem_of_getValidMoves.
  - intros Hwf. unfold Ai.getValidMoves. apply descending_sortMoves.
    apply Forall_forall. intros move Hmove.
    assert (Hlegal : legalMove boards size move).
    { apply elem_of_getValidMoves. unfold Ai.getValidMoves.
      by rewrite sortMoves_Permutation. }
    destruct Hlegal as (board & Hb & _ & Hc).
    apply lookup_lt_Some in Hc.
    eapply Forall_lookup_1 in Hwf; [|exact Hb]. simpl in Hwf. lia.
Qed.

Lemma getValidMoves_distinct_and_ordered_witness :
  descending (moveKey 3)
    (Ai.getValidMoves [[Marked; Empty; Empty; Empty; Empty; Empty;
                        Empty; Empty; Marked]] 3).
Proof.
  apply (getValidMoves_distinct_and_ordered
           [[Marked; Empty; Empty; Empty; Empty; Empty;
             Empty; Empty; Marked]] 3).
  repeat constructor.
Defined.

(** ** Positional values and search depth *)

Lemma div_mod_row_col (size row col : nat) :
  col < size ->
  (row * size + col) / size = row /\ (row * size + col) mod size = col.
Proof.
  intros Hcol. split.
  - symmetry. apply (Nat.div_unique _ _ _ col); lia.
  - symmetry. apply (Nat.mod_unique _ _ row); lia.
Qed.

(** X7. The positional value of the cell in row [row] and column [col]
    is minus its Manhattan distance to the centre of the board (the
    model keeps twice that number).  It is at most 0 and at least
    [-(size - 1)] (doubled: [-2 * (size - 1)]), the same for the cell
    mirrored through the centre and for the transposed cell; a cell
    index past the board has no value. *)
Theorem getCellValue_is_centre_distance (size row col : nat) :
  row < size -> col < size ->
  let value r c := Ai.getCellValue2 (r * size + c) size in
  value row col
  = Some (- Z.abs (2 * Z.of_nat row - (Z.of_nat size - 1))
          - Z.abs (2 * Z.of_nat col - (Z.of_nat size - 1)))%Z
  /\ (exists v, value row col = Some v
                /\ (- 2 * (Z.of_nat size - 1) <= v <= 0)%Z)
  /\ value (size - 1 - row) (size - 1 - col) = value row col
  /\ value col row = value row col
  /\ (forall cellIndex, size * size <= cellIndex ->
                        Ai.getCellValue2 cellIndex size = None).
Proof.
  intros Hrow Hcol value.
  assert (Hval : forall r c, r < size -> c < size ->
    value r c
    = Some (- Z.abs (2 * Z.of_nat r - (Z.of_nat size - 1))
            - Z.abs (2 * Z.of_nat c - (Z.of_nat size - 1)))%Z).
  { intros r c Hr Hc. unfold value, Ai.getCellValue2.
    destruct (Nat.ltb_spec (r * size + c) (size * size)); [|nia].
    destruct (div_mod_row_col size r c Hc) as [-> ->]. done. }
  split; [by apply Hval|]. split; [|split; [|split]].
  - eexists. split; [by apply Hval | lia].
  - rewrite !Hval by lia. f_equal. lia.
  - rewrite !Hval by lia. f_equal. lia.
  - intros cellIndex Hout. unfold Ai.getCellValue2.
    by destruct (Nat.ltb_spec cellIndex (size * size)); [lia|].
Qed.

Lemma getCellValue_is_centre_distance_witness :
  Ai.getCellValue2 4 3 = Some 0%Z /\ Ai.getCellValue2 2 3 = Some (-4)%Z.
Proof.
  split.
  - apply (getCellValue_is_centre_distance 3 1 1); lia.
  - apply (getCellValue_is_centre_distance 3 0 2); lia.
Defined.

(** X8. The search depth is at most 5 and at most [difficulty + 2], at
    least [min 3 difficulty], never smaller for a higher difficulty and
    never larger for a larger product of edge length and board count. *)
Theorem getMaxDepth_bounds
    (size numberOfBoards difficulty size' numberOfBoards' difficulty' : nat) :
  Ai.getMaxDepth size numberOfBoards difficulty <= 5
  /\ Ai.getMaxDepth size numberOfBoards difficulty <= difficulty + 2
  /\ Nat.min 3 difficulty <= Ai.getMaxDepth size numberOfBoards difficulty
  /\ (difficulty <= difficulty' ->
      Ai.getMaxDepth size numberOfBoards difficulty
      <= Ai.getMaxDepth size numberOfBoards difficulty')
  /\ (size * numberOfBoards <= size' * numberOfBoards' ->
      Ai.getMaxDepth size' numberOfBoards' difficulty
      <= Ai.getMaxDepth size numberOfBoards difficulty).
Proof.
  unfold Ai.getMaxDepth.
  repeat match goal with
         | |- context [?a <=? ?b] => destruct (Nat.leb_spec a b)
         end; lia.
Qed.

Lemma getMaxDepth_bounds_witness :
  Ai.getMaxDepth 3 3 1 <= Ai.getMaxDepth 3 3 4
  /\ Ai.getMaxDepth 5 5 4 <= Ai.getMaxDepth 3 3 4.
Proof.
  destruct (getMaxDepth_bounds 3 3 1 3 3 4) as (_ & _ & _ & Hd & _).
  destruct (getMaxDepth_bounds 3 3 4 5 5 4) as (_ & _ & _ & _ & Hc).
  split; [apply Hd | apply Hc]; lia.
Defined.

(** ** The range of the heuristic *)

Lemma scanPatterns_range board sizeMinus1 patterns boardScore :
  (boardScore - (Z.of_nat (length patterns) + 9)
   <= Ai.scanPatterns board sizeMinus1 patterns boardScore <= boardScore)%Z.
Proof.
  revert boardScore.
  induction patterns as [|pattern rest IH]; intros boardScore; simpl.
  - lia.
  - destruct (_ =? sizeMinus1)%Z; [lia|].
    destruct (_ =? sizeMinus1 - 1)%Z.
    + specialize (IH (boardScore - 1)%Z). lia.
    + specialize (IH boardScore). lia.
Qed.

Lemma length_getWinPatterns size :
  length (Ai.getWinPatterns size) = 2 * size + 2.
Proof.
  rewrite getWinPatterns_unfold, length_app, length_pairs. simpl. lia.
Qed.

Lemma heuristic_fold_range boards size score :
  let result :=
    foldl (fun score board =>
             if Ai.isBoardDead board size then score
             else (score + Ai.scanPatterns board (Z.of_nat size - 1)
                             (Ai.getWinPatterns size) 0)%Z) score boards in
  (score - (2 * Z.of_nat size + 11) * Z.of_nat (length boards)
   <= result <= score)%Z
  /\ (forallb (fun board => Ai.isBoardDead board size) boards = true ->
      result = score).
Proof.
  revert score. induction boards as [|board rest IH]; intros score; simpl.
  - split; [lia | done].
  - destruct (IH score) as [Hr1 Hd1].
    destruct (Ai.isBoardDead board size); simpl.
    + split; [lia | done].
    + pose proof (scanPatterns_range board (Z.of_nat size - 1)
                    (Ai.getWinPatterns size) 0) as Hscan.
      rewrite length_getWinPatterns in Hscan.
      destruct (IH (score + Ai.scanPatterns board (Z.of_nat size - 1)
                              (Ai.getWinPatterns size) 0)%Z) as [Hr2 _].
      split; [lia | done].
Qed.

(** X9. The heuristic score is never positive and never below
    [-(2 * size + 11)] per board: at worst every pattern but the last
    costs 1 and the last costs 10.  It is 0 when every board is dead. *)
Theorem heuristic_range (boards : list BoardState) (size : nat) :
  (- (2 * Z.of_nat size + 11) * Z.of_nat (length boards)
   <= Ai.heuristic boards size <= 0)%Z
  /\ (Ai.allDead boards size = true -> Ai.heuristic boards size = 0%Z).
Proof.
  unfold Ai.heuristic, Ai.allDead.
  destruct (heuristic_fold_range boards size 0%Z) as [Hr Hd].
  split; [lia | done].
Qed.

(** ** Applying a move: the search against the component *)

Lemma markedCells_insert (board : BoardState) cellIndex :
  board !! cellIndex = Some Empty ->
  markedCells (<[cellIndex := Marked]> board) = S (markedCells board).
Proof.
  unfold markedCells. revert cellIndex.
  induction board as [|c rest IH]; intros [|i] Hc; simpl in *; try done.
  - injection Hc as ->. rewrite filter_cons.
    by rewrite (decide_False (P := Empty = Marked)).
  - rewrite !filter_cons. destruct (decide (c = Marked)); simpl;
      by rewrite (IH i Hc).
Qed.

Lemma sum_list_insert (l : list nat) i x y :
  l !! i = Some x -> sum_list (<[i := y]> l) + x = sum_list l + y.
Proof.
  revert i. induction l as [|z l IH]; intros [|i] Hi; simpl in *; try done.
  - injection Hi as ->. lia.
  - specialize (IH i Hi). lia.
Qed.

Lemma markedTotal_withMark boards boardIndex cellIndex target :
  boards !! boardIndex = Some target ->
  target !! cellIndex = Some Empty ->
  markedTotal (withMark boards boardIndex cellIndex)
  = S (markedTotal boards).
Proof.
  intros Hb Hc. unfold withMark, markedTotal. rewrite Hb.
  rewrite list_fmap_insert, (markedCells_insert _ _ Hc).
  pose proof (sum_list_insert (markedCells <$> boards) boardIndex
                (markedCells target) (S (markedCells target))) as H.
  rewrite list_lookup_fmap, Hb in H. specialize (H eq_refl). lia.
Qed.

Lemma shape_withMark boards boardIndex cellIndex :
  length <$> withMark boards boardIndex cellIndex = length <$> boards.
Proof.
  unfold withMark. destruct (boards !! boardIndex) as [target|] eqn:Hb;
    [|done].
  rewrite list_fmap_insert, length_insert. apply list_insert_id.
  by rewrite list_lookup_fmap, Hb.
Qed.

Lemma cellAt_withMark boards boardIndex cellIndex b c :
  inRange boards (mkMove boardIndex cellIndex) ->
  cellAt (withMark boards boardIndex cellIndex) b c
  = if decide (b = boardIndex /\ c = cellIndex) then Some Marked
    else cellAt boards b c.
Proof.
  intros (target & Hb & Hc). simpl in *.
  unfold cellAt, withMark. rewrite Hb.
  destruct (decide (b = boardIndex)) as [->|Hne].
  - rewrite list_lookup_insert_eq by (by eapply lookup_lt_Some). simpl.
    destruct (decide (c = cellIndex)) as [->|Hnc].
    + rewrite decide_True by done. by apply list_lookup_insert_eq.
    + rewrite decide_False by (intros [_ ?]; done).
      rewrite list_lookup_insert_ne by done. by rewrite Hb.
  - rewrite decide_False by (intros [? _]; done).
    by rewrite list_lookup_insert_ne.
Qed.

(** X10. On a move whose indices are in range, [updateBoards] of the
    search and the [boards.map] of [handleMove] build the same boards:
    the cell of the move reads Marked, every other cell reads as before,
    and no board changes its length. *)
Theorem updateBoards_is_markCell (boards : list BoardState) (move : Move) :
  inRange boards move ->
  Ai.updateBoards boards move
  = App.markCell boards (boardIndex move) (cellIndex move)
  /\ length <$> Ai.updateBoards boards move = length <$> boards
  /\ (forall b c,
        cellAt (Ai.updateBoards boards move) b c
        = if decide (b = boardIndex move /\ c = cellIndex move)
          then Some Marked
          else cellAt boards b c).
Proof.
  intros Hin. pose proof Hin as (target & Hb & Hc).
  assert (Hupd : Ai.updateBoards boards move
                 = withMark boards (boardIndex move) (cellIndex move))
    by done.
  rewrite Hupd. split; [|split].
  - symmetry. by eapply markCell_withMark.
  - apply shape_withMark.
  - intros b c. apply cellAt_withMark. by destruct move.
Qed.

Lemma updateBoards_is_markCell_witness :
  Ai.updateBoards [[Empty; Marked]; [Empty; Empty]] (mkMove 1 0)
  = App.markCell [[Empty; Marked]; [Empty; Empty]] 1 0.
Proof.
  apply (updateBoards_is_markCell [[Empty; Marked]; [Empty; Empty]]
           (mkMove 1 0)).
  exists [Empty; Empty]. split; [reflexivity | simpl; lia].
Defined.

(** X11. Whatever [handleMove] returns, no board changes its length,
    a board that was dead is exactly as it was, and the edge length and
    the board count of the state are kept; the state is either
    unchanged or holds exactly one more mark. *)
Theorem handleMove_footprint
    (calc : bool -> nat -> nat -> nat -> App.Rewards)
    (s s' : App.State) (boardIndex cellIndex : nat) :
  App.handleMove calc s boardIndex cellIndex = App.Ok s' ->
  length <$> App.boards s' = length <$> App.boards s
  /\ (forall j board,
        App.boards s !! j = Some board ->
        App.isBoardDead (App.boardSize s) board = true ->
        App.boards s' !! j = Some board)
  /\ App.boardSize s' = App.boardSize s
  /\ App.numberOfBoards s' = App.numberOfBoards s
  /\ (s' = s
      \/ markedTotal (App.boards s') = S (markedTotal (App.boards s))).
Proof.
  intros Hm.
  destruct (App.boards s !! boardIndex) as [target|] eqn:Hb;
    [|unfold App.handleMove in Hm; by rewrite Hb in Hm].
  destruct (handleMove_refused_or_applied calc s boardIndex cellIndex
              target Hb) as [Hr|(s'' & Hs'' & Hboards & _ & Hc & Hd)].
  - rewrite Hr in Hm. injection Hm as <-. repeat split; tauto.
  - pose proof Hs'' as Hfields. rewrite Hs'' in Hm. injection Hm as <-.
    rewrite Hboards. split; [apply shape_withMark|]. split; [|split; [|split]].
    + intros j board Hj Hdead. unfold withMark. rewrite Hb.
      destruct (decide (j = boardIndex)) as [->|Hne]; [congruence|].
      by rewrite list_lookup_insert_ne.
    + unfold App.handleMove in Hfields. rewrite Hb, Hc, Hd in Hfields.
      simpl in Hfields.
      destruct (forallb _ _), (App.gameMode s), (App.currentPlayer s);
        simpl in Hfields; by injection Hfields as <-.
    + unfold App.handleMove in Hfields. rewrite Hb, Hc, Hd in Hfields.
      simpl in Hfields.
      destruct (forallb _ _), (App.gameMode s), (App.currentPlayer s);
        simpl in Hfields; by injection Hfields as <-.
    + right. by eapply markedTotal_withMark.
Qed.

Lemma handleMove_footprint_witness :
  exists s', App.handleMove noRewards freshGame 1 4 = App.Ok s'
             /\ length <$> App.boards s' = [9; 9; 9].
Proof.
  eexists. split; [reflexivity|].
  apply (handleMove_footprint noRewards freshGame _ 1 4). reflexivity.
Defined.

(** ** Undo, skip and reconfiguration *)

Lemma handleUndo_success s :
  3 <= length (App.gameHistory s) ->
  (100 <= App.coins s)%Z ->
  exists snapshot,
    App.gameHistory s !! (length (App.gameHistory s) - 3) = Some snapshot
    /\ App.handleUndo s
       = App.setGameHistory
           (take (length (App.gameHistory s) - 2) (App.gameHistory s))
           (App.setBoards snapshot (App.setCoins (App.coins s - 100)%Z s)).
Proof.
  intros Hlen Hcoins. unfold App.handleUndo.
  destruct (Nat.leb_spec 3 (length (App.gameHistory s))); [|lia].
  destruct (Z.leb_spec 100 (App.coins s)); [|lia].
  destruct (lookup_lt_is_Some_2 (App.gameHistory s)
              (length (App.gameHistory s) - 3) ltac:(lia)) as [snap Hsnap].
  exists snap. by rewrite Hsnap.
Qed.

Lemma handleUndo_refusal s :
  length (App.gameHistory s) < 3 \/ (App.coins s < 100)%Z ->
  App.handleUndo s = s.
Proof.
  intros Hr. unfold App.handleUndo.
  destruct (Nat.leb_spec 3 (length (App.gameHistory s))); [|done].
  destruct (Z.leb_spec 100 (App.coins s)); [|done]. lia.
Qed.

(** X12. Two moves that were applied, then an undo paid with at least
    100 coins: the boards and the history are those from before the two
    moves, 100 coins are gone, and the turn marker and the winner
    dialog are left as the second move set them. *)
Theorem handleUndo_takes_back_two_moves
    (calc : bool -> nat -> nat -> nat -> App.Rewards)
    (s s1 s2 : App.State) (b1 c1 b2 c2 : nat) :
  historyTracksBoards s ->
  App.handleMove calc s b1 c1 = App.Ok s1 -> s1 <> s ->
  App.handleMove calc s1 b2 c2 = App.Ok s2 -> s2 <> s1 ->
  (100 <= App.coins s2)%Z ->
  App.boards (App.handleUndo s2) = App.boards s
  /\ App.gameHistory (App.handleUndo s2) = App.gameHistory s
  /\ App.coins (App.handleUndo s2) = (App.coins s2 - 100)%Z
  /\ App.currentPlayer (App.handleUndo s2) = App.currentPlayer s2
  /\ App.showWinnerModal (App.handleUndo s2) = App.showWinnerModal s2.
Proof.
  intros Htracks Hm1 Hne1 Hm2 Hne2 Hcoins.
  assert (Happlied : forall t t' b c,
    App.handleMove calc t b c = App.Ok t' -> t' <> t ->
    App.gameHistory t' = App.gameHistory t ++ [App.boards t']).
  { intros t t' b c Hm Hne.
    destruct (App.boards t !! b) as [target|] eqn:Hb;
      [|unfold App.handleMove in Hm; by rewrite Hb in Hm].
    destruct (handleMove_refused_or_applied calc t b c target Hb)
      as [Hr|(t'' & Ht'' & _ & Hhist & _)]; congruence. }
  pose proof (Happlied s s1 b1 c1 Hm1 Hne1) as H1.
  pose proof (Happlied s1 s2 b2 c2 Hm2 Hne2) as H2.
  rewrite H1 in H2.
  assert (Hlast : App.gameHistory s
                    !! (length (App.gameHistory s) - 1) = Some (App.boards s)).
  { unfold historyTracksBoards in Htracks. rewrite last_lookup in Htracks.
    by replace (length (App.gameHistory s) - 1)
      with (pred (length (App.gameHistory s))) by lia. }
  pose proof (lookup_lt_Some _ _ _ Hlast) as Hpos.
  assert (Hlen : length (App.gameHistory s2)
                 = length (App.gameHistory s) + 2).
  { rewrite H2, !length_app. simpl. lia. }
  destruct (handleUndo_success s2) as (snap & Hsnap & ->); [lia | done |].
  simpl. rewrite Hlen, H2 in *.
  replace (length (App.gameHistory s) + 2 - 3)
    with (length (App.gameHistory s) - 1) in Hsnap by lia.
  rewrite <- app_assoc, lookup_app_l in Hsnap by lia.
  rewrite Hlast in Hsnap. injection Hsnap as <-.
  split; [done|]. split; [|done].
  replace (length (App.gameHistory s) + 2 - 2)
    with (length (App.gameHistory s)) by lia.
  by rewrite <- app_assoc, take_app_length.
Qed.

Lemma handleUndo_takes_back_two_moves_witness :
  exists s1 s2,
    App.handleMove noRewards freshGame 1 4 = App.Ok s1
    /\ App.handleMove noRewards s1 0 0 = App.Ok s2
    /\ App.boards (App.handleUndo s2) = App.boards freshGame.
Proof.
  eexists. eexists. split; [reflexivity|]. split; [reflexivity|].
  eapply (handleUndo_takes_back_two_moves noRewards freshGame _ _ 1 4 0 0).
  - reflexivity.
  - reflexivity.
  - vm_compute. discriminate.
  - reflexivity.
  - vm_compute. discriminate.
  - vm_compute. discriminate.
Defined.

(** X13. [handleUndo] leaves the state as it is with fewer than three
    snapshots or fewer than 100 coins.  Otherwise it drops exactly the
    last two snapshots and charges 100 coins.  It never touches the
    turn marker, never empties a history that was not empty and never
    takes the coins below zero. *)
Theorem handleUndo_guards (s : App.State) :
  (length (App.gameHistory s) < 3 \/ (App.coins s < 100)%Z ->
   App.handleUndo s = s)
  /\ (3 <= length (App.gameHistory s) -> (100 <= App.coins s)%Z ->
      App.gameHistory (App.handleUndo s)
      = take (length (App.gameHistory s) - 2) (App.gameHistory s)
      /\ App.coins (App.handleUndo s) = (App.coins s - 100)%Z)
  /\ App.currentPlayer (App.handleUndo s) = App.currentPlayer s
  /\ (App.gameHistory s <> [] -> App.gameHistory (App.handleUndo s) <> [])
  /\ ((0 <= App.coins s)%Z -> (0 <= App.coins (App.handleUndo s))%Z).
Proof.
  split; [apply handleUndo_refusal|].
  destruct (Nat.leb_spec 3 (length (App.gameHistory s))) as [Hlen|Hlen];
    [destruct (Z.leb_spec 100 (App.coins s)) as [Hcoins|Hcoins]|].
  - destruct (handleUndo_success s Hlen Hcoins) as (snap & _ & ->). simpl.
    split; [done|]. split; [done|]. split; [|lia].
    intros _ Hnil. apply (f_equal length) in Hnil.
    rewrite length_take_le in Hnil by lia. simpl in Hnil. lia.
  - rewrite handleUndo_refusal by auto.
    split; [lia|]. by repeat split.
  - rewrite handleUndo_refusal by auto.
    split; [lia|]. by repeat split.
Qed.

Lemma handleUndo_guards_witness :
  App.handleUndo freshGame = freshGame.
Proof.
  apply (handleUndo_guards freshGame). left. simpl. lia.
Defined.



(** X15. [handleBoardConfigChange] stores the board count clamped into
    1..5 but builds the boards from the count it was given: the state
    holds [num] boards of [size * size] cells, and that number equals
    the stored board count exactly when [num] is between 1 and 5.  The
    history holds the new boards alone and side 1 is to move. *)
Theorem handleBoardConfigChange_clamps_count_only
    (num size : nat) (s : App.State) :
  let s' := App.handleBoardConfigChange num size s in
  App.numberOfBoards s' = Nat.min 5 (Nat.max 1 num)
  /\ length (App.boards s') = num
  /\ (length (App.boards s') = App.numberOfBoards s' <-> 1 <= num <= 5)
  /\ App.boardSize s' = size
  /\ wellFormedBoards size (App.boards s')
  /\ App.gameHistory s' = [App.boards s']
  /\ App.currentPlayer s' = App.P1.
Proof.
  cbn -[Nat.min Nat.max]. rewrite length_replicate.
  split; [done|]. split; [done|]. split; [lia|]. split; [done|].
  split; [|done]. apply Forall_replicate. by rewrite length_replicate.
Qed.

(** ** The computer's move *)

Lemma legalMove_accepted calc s move :
  wellFormedBoards (App.boardSize s) (App.boards s) ->
  legalMove (App.boards s) (App.boardSize s) move ->
  exists s',
    App.handleMove calc s (boardIndex move) (cellIndex move) = App.Ok s'
    /\ App.boards s' = Ai.updateBoards (App.boards s) move
    /\ App.gameHistory s' = App.gameHistory s ++ [App.boards s']
    /\ s' <> s.
Proof.
  intros Hwf (target & Hb & Hd & Hc).
  assert (Hlen : length target = App.boardSize s * App.boardSize s)
    by (by eapply Forall_lookup_1 in Hwf).
  rewrite <- isBoardDead_agree in Hd by done.
  destruct (handleMove_applied calc s _ _ target Hb Hc Hd)
    as (s' & Hs' & Hboards & Hhist & _).
  exists s'. split; [done|]. split; [|split; [done|]].
  - rewrite Hboards. unfold withMark, Ai.updateBoards. by rewrite Hb.
  - intros Heq. rewrite Heq in Hboards.
    by apply (withMark_neq _ _ _ _ Hb Hc).
Qed.

(** X16. On boards of [boardSize * boardSize] cells the move that
    [findBestMove] picks is never refused by [handleMove] and the call
    never throws: when the computer is to move and a legal move exists,
    the effect applies a legal move, with the boards that [updateBoards]
    computes, and appends them to the history; without a legal move, or
    when the computer is not to move, it leaves the state as it is. *)
Theorem computerMove_is_accepted
    (calc : bool -> nat -> nat -> nat -> App.Rewards)
    (random : Random) (s : App.State) :
  wellFormedBoards (App.boardSize s) (App.boards s) ->
  (~ computerToMove s -> App.computerMove calc random s = App.Ok s)
  /\ ((~ exists move, legalMove (App.boards s) (App.boardSize s) move) ->
      App.computerMove calc random s = App.Ok s)
  /\ (computerToMove s ->
      (exists move, legalMove (App.boards s) (App.boardSize s) move) ->
      exists s' move,
        App.computerMove calc random s = App.Ok s'
        /\ legalMove (App.boards s) (App.boardSize s) move
        /\ App.boards s' = Ai.updateBoards (App.boards s) move
        /\ App.gameHistory s' = App.gameHistory s ++ [App.boards s']
        /\ s' <> s).
Proof.
  intros Hwf. unfold App.computerMove, computerToMove.
  split; [|split].
  - intros Hnot.
    destruct (bool_decide_reflect (App.gameMode s = App.VsComputer));
      destruct (bool_decide_reflect (App.currentPlayer s = App.P2));
      simpl; try done. by destruct Hnot.
  - intros Hno. destruct (_ && _); [|done].
    rewrite findBestMove_no_moves; [done|].
    destruct (Ai.getValidMoves _ _) as [|m0 rest] eqn:E; [done|].
    exfalso. apply Hno. exists m0. apply elem_of_getValidMoves.
    rewrite E. apply list_elem_of_here.
  - intros [Hmode Hturn] (m0 & Hm0).
    rewrite !bool_decide_eq_true_2 by done. simpl.
    destruct (findBestMove_pick random (App.boards s) (App.difficulty s)
                (App.boardSize s) (App.numberOfBoards s))
      as [_ (move & -> & Hin)].
    { apply elem_of_getValidMoves in Hm0. intros Hnil.
      rewrite Hnil in Hm0. by apply elem_of_nil in Hm0. }
    assert (Hlegal : legalMove (App.boards s) (App.boardSize s) move)
      by (apply elem_of_getValidMoves; by apply tiedBest_subseteq in Hin).
    destruct (legalMove_accepted calc s move Hwf Hlegal)
      as (s' & Hs' & Hboards & Hhist & Hne).
    by exists s', move.
Qed.

Lemma computerMove_is_accepted_witness :
  exists s' move,
    App.computerMove noRewards randomZero
      (App.setCurrentPlayer App.P2 (App.startGame App.VsComputer freshGame))
    = App.Ok s'
    /\ App.boards s'
       = Ai.updateBoards (App.boards freshGame) move.
Proof.
  destruct (computerMove_is_accepted noRewards randomZero
              (App.setCurrentPlayer App.P2
                 (App.startGame App.VsComputer freshGame)))
    as (_ & _ & H).
  - repeat constructor.
  - destruct H as (s' & move & Hs' & _ & Hboards & _).
    + split; reflexivity.
    + exists (mkMove 0 0), (replicate 9 Empty). repeat split; reflexivity.
    + exists s', move. split; [exact Hs' | exact Hboards].
Defined.

Lemma tiedBest_early_exit score moves :
  (exists move, move ∈ moves /\ score move = Num.PosInf) ->
  exists chosen,
    tiedBest score moves = [chosen]
    /\ chosen ∈ moves
    /\ score chosen = Num.PosInf.
Proof.
  unfold tiedBest.
  induction moves as [|head rest IH]; intros (m & Hm & Hs).
  - by apply elem_of_nil in Hm.
  - simpl. destruct (Num.eqb (score head) Num.PosInf) eqn:Ehead.
    + apply bool_decide_eq_true in Ehead.
      exists head. split; [|split; [apply list_elem_of_here | done]].
      simpl. rewrite Ehead, filter_cons, filter_nil.
      by rewrite decide_True.
    + apply bool_decide_eq_false in Ehead.
      apply elem_of_cons in Hm as [->|Hm]; [done|].
      destruct IH as (chosen & Hbest & Hin & Hinf); [by exists m|].
      assert (Hmax : maxScore score (evaluatedMoves score rest) = Num.PosInf).
      { assert (Hc : chosen ∈ [chosen]) by apply list_elem_of_here.
        rewrite <- Hbest in Hc. apply list_elem_of_filter in Hc as [Hc _].
        congruence. }
      exists chosen. split; [|split; [by apply list_elem_of_further | done]].
      change (maxScore score (head :: evaluatedMoves score rest))
        with (Num.max (score head)
                (maxScore score (evaluatedMoves score rest))).
      rewrite Hmax in *.
      assert (Num.max (score head) Num.PosInf = Num.PosInf) as ->
        by (by destruct (score head)).
      rewrite filter_cons, decide_False by done. exact Hbest.
Qed.

(** X17. A valid move that leaves every board dead scores plus
    infinity, whatever the depth.  When such a move exists the loop of
    [findBestMove] stops at the first move with that score: the best
    set is that single move, and [findBestMove] returns it for every
    random value. *)
Theorem findBestMove_stops_at_plus_infinity
    (boards : list BoardState) (difficulty size numberOfBoards : nat)
    (killer : Move) :
  killer ∈ Ai.getValidMoves boards size ->
  Ai.allDead (Ai.updateBoards boards killer) size = true ->
  (forall depth, Ai.moveScore boards depth size killer = Num.PosInf)
  /\ exists chosen,
       bestSet boards difficulty size numberOfBoards = [chosen]
       /\ Ai.moveScore boards
            (Ai.getMaxDepth size numberOfBoards difficulty) size chosen
          = Num.PosInf
       /\ forall random,
            Ai.findBestMove random boards difficulty size numberOfBoards
            = Some chosen.
Proof.
  intros Hvalid Hdead.
  assert (Hscore : forall depth,
             Ai.moveScore boards depth size killer = Num.PosInf).
  { intros depth. unfold Ai.moveScore. by rewrite minimax_terminal. }
  split; [done|].
  destruct (tiedBest_early_exit
              (Ai.moveScore boards
                 (Ai.getMaxDepth size numberOfBoards difficulty) size)
              (Ai.getValidMoves boards size))
    as (chosen & Hbest & Hin & Hinf); [by exists killer|].
  exists chosen. split; [done|]. split; [done|]. intros random.
  destruct (findBestMove_pick random boards difficulty size numberOfBoards)
    as [_ (move & Hmove & Hmem)].
  { intros Hnil. rewrite Hnil in Hvalid. by apply elem_of_nil in Hvalid. }
  unfold bestSet in Hmem. rewrite Hbest in Hmem.
  apply list_elem_of_singleton in Hmem. by subst.
Qed.

Lemma findBestMove_stops_at_plus_infinity_witness :
  Ai.findBestMove randomZero
    [[Marked; Empty; Empty; Empty; Marked; Empty; Empty; Empty; Empty]] 1 3 1
  = Some (mkMove 0 8).
Proof.
  destruct (findBestMove_stops_at_plus_infinity
              [[Marked; Empty; Empty; Empty; Marked; Empty;
                Empty; Empty; Empty]] 1 3 1 (mkMove 0 8))
    as (_ & chosen & Hbest & _ & Hfind).
  - assert (E : Ai.getValidMoves
                  [[Marked; Empty; Empty; Empty; Marked; Empty;
                    Empty; Empty; Empty]] 3
                = [mkMove 0 1; mkMove 0 3; mkMove 0 5; mkMove 0 7;
                   mkMove 0 2; mkMove 0 6; mkMove 0 8]) by reflexivity.
    rewrite E. repeat constructor.
  - reflexivity.
  - rewrite (Hfind randomZero). f_equal.
    assert (E : bestSet [[Marked; Empty; Empty; Empty; Marked; Empty;
                          Empty; Empty; Empty]] 1 3 1 = [mkMove 0 8])
      by reflexivity.
    rewrite E in Hbest. by injection Hbest.
Defined.

(** ** The history of a game *)

Lemma markedTotal_fresh num k :
  markedTotal (replicate num (replicate k Empty)) = 0.
Proof.
  assert (Hboard : markedCells (replicate k Empty) = 0).
  { unfold markedCells. induction k as [|k IH]; [done|]. simpl.
    by rewrite filter_cons, decide_False. }
  unfold markedTotal. induction num as [|num IH]; [done|].
  csimpl. by rewrite Hboard, IH.
Qed.

Lemma history_invariants_reset num size s :
  historyShaped (App.resetGame num size s)
  /\ historyCounts (App.resetGame num size s).
Proof.
  split.
  - by constructor.
  - intros [|k] snap Hk; simpl in Hk; [|done].
    injection Hk as <-. apply markedTotal_fresh.
Qed.

Lemma history_invariants_same s s' :
  App.boards s' = App.boards s ->
  App.gameHistory s' = App.gameHistory s ->
  historyTracksBoards s /\ historyShaped s /\ historyCounts s ->
  historyTracksBoards s' /\ historyShaped s' /\ historyCounts s'.
Proof.
  unfold historyTracksBoards, historyShaped, historyCounts.
  by intros -> ->.
Qed.

Lemma history_invariants_move calc s boardIndex cellIndex s' :
  historyTracksBoards s /\ historyShaped s /\ historyCounts s ->
  App.handleMove calc s boardIndex cellIndex = App.Ok s' ->
  historyTracksBoards s' /\ historyShaped s' /\ historyCounts s'.
Proof.
  intros (Ht & Hs & Hc) Hm.
  destruct (App.boards s !! boardIndex) as [target|] eqn:Hb;
    [|unfold App.handleMove in Hm; by rewrite Hb in Hm].
  destruct (handleMove_refused_or_applied calc s boardIndex cellIndex
              target Hb) as [Hr|(s'' & Hs'' & Hboards & Hhist & Hcell & _)].
  - rewrite Hr in Hm. by injection Hm as <-.
  - rewrite Hs'' in Hm. injection Hm as <-.
    unfold historyTracksBoards, historyShaped, historyCounts.
    rewrite Hhist. split; [apply last_snoc|]. split.
    + apply Forall_app. split; [|by repeat constructor].
      eapply Forall_impl; [exact Hs|]. simpl. intros snap ->.
      by rewrite Hboards, shape_withMark.
    + intros k snap Hk.
      unfold historyTracksBoards in Ht. rewrite last_lookup in Ht.
      pose proof (lookup_lt_Some _ _ _ Ht) as Hpos.
      apply lookup_app_Some in Hk as [Hk|[Hge Hk]]; [by apply Hc|].
      destruct (k - length (App.gameHistory s)) as [|d] eqn:Ed;
        simpl in Hk; [|done].
      injection Hk as <-. rewrite Hboards.
      rewrite (markedTotal_withMark _ _ _ target) by done.
      rewrite (Hc _ _ Ht). lia.
Qed.

Lemma history_invariants_undo s :
  historyTracksBoards s /\ historyShaped s /\ historyCounts s ->
  historyTracksBoards (App.handleUndo s)
  /\ historyShaped (App.handleUndo s)
  /\ historyCounts (App.handleUndo s).
Proof.
  intros (Ht & Hs & Hc).
  destruct (Nat.leb_spec 3 (length (App.gameHistory s))) as [Hlen|Hlen];
    [destruct (Z.leb_spec 100 (App.coins s)) as [Hcoins|Hcoins]|];
    [|by rewrite handleUndo_refusal by auto..].
  split; [by apply handleUndo_tracks|].
  destruct (handleUndo_success s Hlen Hcoins) as (snap & Hsnap & ->).
  unfold historyShaped, historyCounts. simpl.
  assert (Hshape : length <$> snap = length <$> App.boards s)
    by (by eapply Forall_lookup_1 in Hs).
  split.
  - apply Forall_take. eapply Forall_impl; [exact Hs|]. simpl.
    intros other Hother. by rewrite Hother, Hshape.
  - intros k other Hk. apply lookup_take_Some in Hk as [Hk _].
    by apply Hc.
Qed.

Lemma history_invariants_reachable calc s :
  App.reachable calc s ->
  historyTracksBoards s /\ historyShaped s /\ historyCounts s.
Proof.
  induction 1 as [num size s0|s e s' _ IH Hstep].
  - split; [apply resetGame_tracks | apply history_invariants_reset].
  - destruct e as [bi ci|random| | | |num size|mode|level|p1 p2| | |c x];
      simpl in Hstep.
    + by eapply history_invariants_move.
    + unfold App.computerMove in Hstep.
      destruct (_ && _); [|by injection Hstep as <-].
      destruct (Ai.findBestMove _ _ _ _ _) as [move|];
        [by eapply history_invariants_move | by injection Hstep as <-].
    + injection Hstep as <-. by apply history_invariants_undo.
    + injection Hstep as <-. revert IH. apply history_invariants_same;
        unfold App.handleSkip; by destruct (Z.leb_spec 200 (App.coins s)).
    + injection Hstep as <-.
      split; [apply resetGame_tracks | apply history_invariants_reset].
    + injection Hstep as <-.
      split; [apply resetGame_tracks | apply history_invariants_reset].
    + injection Hstep as <-.
      split; [apply resetGame_tracks | apply history_invariants_reset].
    + injection Hstep as <-.
      split; [apply resetGame_tracks | apply history_invariants_reset].
    + injection Hstep as <-. revert IH. by apply history_invariants_same.
    + injection Hstep as <-. revert IH. by apply history_invariants_same.
    + injection Hstep as <-. revert IH. by apply history_invariants_same.
    + injection Hstep as <-. revert IH. by apply history_invariants_same.
Qed.

(** X18. In every state of a game, each snapshot of the history has as
    many boards as the live position and board by board the same number
    of cells: moves and undos never change the geometry between two
    resets. *)
Theorem history_snapshots_share_shape
    (calc : bool -> nat -> nat -> nat -> App.Rewards) (s : App.State) :
  App.reachable calc s ->
  forall snapshot,
    snapshot ∈ App.gameHistory s ->
    length snapshot = length (App.boards s)
    /\ length <$> snapshot = length <$> App.boards s.
Proof.
  intros Hreach snapshot Hin.
  destruct (history_invariants_reachable calc s Hreach) as (_ & Hs & _).
  eapply Forall_forall in Hs; [|exact Hin]. split; [|done].
  apply (f_equal length) in Hs. by rewrite !length_fmap in Hs.
Qed.

Lemma history_snapshots_share_shape_witness :
  exists s1,
    App.handleMove noRewards freshGame 1 4 = App.Ok s1
    /\ length <$> App.boards freshGame = length <$> App.boards s1.
Proof.
  eexists. split; [reflexivity|].
  eapply (history_snapshots_share_shape noRewards).
  - apply (App.reachable_step noRewards freshGame (App.EvMove 1 4));
      [apply App.reachable_reset | reflexivity].
  - apply list_elem_of_here.
Defined.

(** X19. In every state of a game the history is not empty, its
    snapshot at position [k] holds exactly [k] marks, and the live
    boards hold one mark per move of the history: as many marks as the
    history has snapshots after the first. *)
Theorem history_counts_the_moves
    (calc : bool -> nat -> nat -> nat -> App.Rewards) (s : App.State) :
  App.reachable calc s ->
  App.gameHistory s <> []
  /\ (forall k snapshot,
        App.gameHistory s !! k = Some snapshot -> markedTotal snapshot = k)
  /\ markedTotal (App.boards s) = length (App.gameHistory s) - 1.
Proof.
  intros Hreach.
  destruct (history_invariants_reachable calc s Hreach) as (Ht & _ & Hc).
  unfold historyTracksBoards in Ht. rewrite last_lookup in Ht.
  pose proof (lookup_lt_Some _ _ _ Ht) as Hpos.
  split; [|split; [done|]].
  - intros Hnil. rewrite Hnil in Hpos. simpl in Hpos. lia.
  - rewrite (Hc _ _ Ht). lia.
Qed.

Lemma history_counts_the_moves_witness :
  markedTotal (App.boards freshGame) = 0.
Proof.
  apply (history_counts_the_moves noRewards freshGame).
  apply App.reachable_reset.
Defined.

(** ** Short boards, finished games and the shrinking set of moves *)

(** X20. The dead-board test of the component reads a missing last row
    as fully marked: a board with no cell in its last row, the empty
    board among them, is dead for the component, while the empty board
    is not dead for the search module.  The two tests part on boards
    that are too short. *)
Theorem isBoardDead_short_board_diverges (size : nat) (board : BoardState) :
  1 <= size ->
  length board <= (size - 1) * size ->
  App.isBoardDead size board = true
  /\ App.isBoardDead size [] = true
  /\ Ai.isBoardDead [] size = false.
Proof.
  intros Hsize Hshort.
  assert (Happ : forall b : BoardState,
             length b <= (size - 1) * size -> App.isBoardDead size b = true).
  { intros b Hb. unfold App.isBoardDead. apply orb_true_iff. left.
    apply existsb_seq. exists (size - 1). split; [lia|].
    apply orb_true_iff. left. unfold slice.
    rewrite drop_ge by lia. by rewrite take_nil. }
  split; [by apply Happ|]. split; [apply Happ; simpl; lia|].
  destruct (Ai.isBoardDead [] size) eqn:E; [|done]. exfalso.
  apply ai_isBoardDead_lines in E
    as [(i & Hi & H)|[(i & Hi & H)|[H|H]]];
    specialize (H 0 ltac:(lia)); by rewrite lookup_nil in H.
Qed.

Lemma isBoardDead_short_board_diverges_witness :
  App.isBoardDead 3 [Empty; Empty; Empty; Empty; Empty; Empty] = true.
Proof.
  apply (isBoardDead_short_board_diverges 3
           [Empty; Empty; Empty; Empty; Empty; Empty]); simpl; lia.
Defined.

(** X21. A finished game is closed to moves: when every board is dead
    for the component, [handleMove] returns the state unchanged for
    every existing board, and on boards of [boardSize * boardSize]
    cells the effect of the computer changes nothing either. *)
Theorem finished_game_refuses_moves
    (calc : bool -> nat -> nat -> nat -> App.Rewards) (s : App.State) :
  forallb (App.isBoardDead (App.boardSize s)) (App.boards s) = true ->
  (forall boardIndex cellIndex,
      is_Some (App.boards s !! boardIndex) ->
      App.handleMove calc s boardIndex cellIndex = App.Ok s)
  /\ (wellFormedBoards (App.boardSize s) (App.boards s) ->
      forall random, App.computerMove calc random s = App.Ok s).
Proof.
  intros Hall.
  assert (Hdead : forall j board,
             App.boards s !! j = Some board ->
             App.isBoardDead (App.boardSize s) board = true).
  { intros j board Hj. rewrite forallb_forall in Hall. apply Hall.
    apply list_elem_of_In. by eapply list_elem_of_lookup_2. }
  split.
  - intros bi ci [target Hb].
    apply (handleMove_refused calc s bi ci target Hb). right. by eapply Hdead.
  - intros Hwf random. unfold App.computerMove. destruct (_ && _); [|done].
    rewrite findBestMove_no_moves; [done|].
    apply getValidMoves_nil, Forall_lookup. intros j board Hj. left.
    rewrite <- isBoardDead_agree; [by eapply Hdead|].
    by eapply Forall_lookup_1 in Hwf.
Qed.

Lemma finished_game_refuses_moves_witness :
  exists s1,
    App.handleMove noRewards tinyGame 0 0 = App.Ok s1
    /\ App.handleMove noRewards s1 0 0 = App.Ok s1.
Proof.
  eexists. split; [reflexivity|].
  apply (finished_game_refuses_moves noRewards); [reflexivity|].
  eexists. reflexivity.
Defined.

Lemma marksAdded_insert (board : BoardState) cellIndex :
  marksAdded board (<[cellIndex := Marked]> board).
Proof.
  unfold marksAdded. revert cellIndex.
  induction board as [|c rest IH]; intros [|i]; simpl.
  - constructor.
  - constructor.
  - constructor; [done|]. by apply Forall_Forall2_diag, Forall_forall.
  - constructor; [done | apply IH].
Qed.

Lemma legalMove_after_update boards size played move :
  legalMove boards size played ->
  legalMove (Ai.updateBoards boards played) size move ->
  legalMove boards size move /\ move <> played.
Proof.
  intros (target & Hb & Hd & Hc) (board & Hb' & Hd' & Hc').
  unfold Ai.updateBoards in Hb'. rewrite Hb in Hb'.
  destruct (decide (boardIndex move = boardIndex played)) as [Heq|Hne].
  - rewrite Heq, list_lookup_insert_eq in Hb'
      by (by eapply lookup_lt_Some).
    injection Hb' as <-.
    destruct (decide (cellIndex move = cellIndex played)) as [Hceq|Hcne].
    + rewrite Hceq, list_lookup_insert_eq in Hc'
        by (by eapply lookup_lt_Some). done.
    + rewrite list_lookup_insert_ne in Hc' by done. split.
      * exists target. rewrite Heq. split; [done|]. split; [|done].
        destruct (Ai.isBoardDead target size) eqn:E; [|done].
        by rewrite (ai_isBoardDead_mono _ _ _
                      (marksAdded_insert target (cellIndex played)) E) in Hd'.
      * intros ->. done.
  - rewrite list_lookup_insert_ne in Hb' by done. split.
    + by exists board.
    + intros ->. done.
Qed.

(** X22. Playing a valid move only takes moves away: every move valid
    after [updateBoards] was valid before, the move just played is no
    longer valid, and the list of valid moves gets strictly shorter. *)
Theorem valid_moves_shrink
    (boards : list BoardState) (size : nat) (played : Move) :
  played ∈ Ai.getValidMoves boards size ->
  (forall move,
      move ∈ Ai.getValidMoves (Ai.updateBoards boards played) size ->
      move ∈ Ai.getValidMoves boards size /\ move <> played)
  /\ length (Ai.getValidMoves (Ai.updateBoards boards played) size)
     < length (Ai.getValidMoves boards size).
Proof.
  intros Hplayed.
  assert (Hsub : forall move,
    move ∈ Ai.getValidMoves (Ai.updateBoards boards played) size ->
    move ∈ Ai.getValidMoves boards size /\ move <> played).
  { intros move Hmove. rewrite !elem_of_getValidMoves in *.
    by eapply legalMove_after_update. }
  split; [done|].
  assert (Hle : played :: Ai.getValidMoves (Ai.updateBoards boards played) size
                ⊆+ Ai.getValidMoves boards size).
  { apply NoDup_submseteq.
    - constructor.
      + intros Hin. by destruct (Hsub played Hin).
      + unfold Ai.getValidMoves. rewrite sortMoves_Permutation.
        apply NoDup_candidateMoves.
    - intros move [->|Hin]%elem_of_cons; [done | by apply Hsub]. }
  apply submseteq_length in Hle. simpl in Hle. lia.
Qed.

Lemma valid_moves_shrink_witness :
  length (Ai.getValidMoves
            (Ai.updateBoards [[Empty; Empty; Empty; Empty]] (mkMove 0 1)) 2)
  < length (Ai.getValidMoves [[Empty; Empty; Empty; Empty]] 2).
Proof.
  apply (valid_moves_shrink [[Empty; Empty; Empty; Empty]] 2 (mkMove 0 1)).
  assert (E : Ai.getValidMoves [[Empty; Empty; Empty; Empty]] 2
              = [mkMove 0 0; mkMove 0 1; mkMove 0 2; mkMove 0 3])
    by reflexivity.
  rewrite E. repeat constructor.
Defined.

(** ** The range of the minimax scores *)

Lemma scoreInRange_max size n a b :
  scoreInRange size n a -> scoreInRange size n b ->
  scoreInRange size n (Num.max a b).
Proof. unfold Num.max. by destruct (Num.leb a b). Qed.

Lemma scoreInRange_min size n a b :
  scoreInRange size n a -> scoreInRange size n b ->
  scoreInRange size n (Num.min a b).
Proof. unfold Num.min. by destruct (Num.leb a b). Qed.

Lemma minimaxLoop_inRange size n child isMaximizing moves bestValue alpha beta :
  (forall move a b, scoreInRange size n (child move a b)) ->
  scoreInRange size n bestValue ->
  scoreInRange size n
    (Ai.minimaxLoop child isMaximizing moves bestValue alpha beta).
Proof.
  intros Hchild. revert bestValue alpha beta.
  induction moves as [|move rest IH]; intros bestValue alpha beta Hbest;
    simpl; [done|].
  assert (Hnew : scoreInRange size n
            (if isMaximizing
             then Num.max bestValue (child move alpha beta)
             else Num.min bestValue (child move alpha beta))).
  { destruct isMaximizing;
      [apply scoreInRange_max | apply scoreInRange_min]; auto. }
  destruct (Num.leb _ _); [done | by apply IH].
Qed.

Lemma length_updateBoards boards move :
  length (Ai.updateBoards boards move) = length boards.
Proof.
  unfold Ai.updateBoards. destruct (boards !! boardIndex move); [|done].
  apply length_insert.
Qed.

(** X23. Every score that [minimax] returns is plus infinity, minus
    infinity, or an integer in the range of the heuristic for the
    number of boards at hand: never positive, never below
    [-(2 * size + 11)] per board.  The same holds for the score
    [findBestMove] gives a move. *)
Theorem minimax_score_range
    (depth : nat) (boards : list BoardState) (isMaximizing : bool)
    (size : nat) (alpha beta : Num.t) (move : Move) :
  scoreInRange size (length boards)
    (Ai.minimax depth boards isMaximizing size alpha beta)
  /\ scoreInRange size (length boards)
       (Ai.moveScore boards depth size move).
Proof.
  assert (H : forall depth boards isMaximizing alpha beta,
    scoreInRange size (length boards)
      (Ai.minimax depth boards isMaximizing size alpha beta)).
  { clear. intros depth.
    induction depth as [|depth IH]; intros boards isMaximizing alpha beta;
      simpl; destruct (Ai.allDead boards size);
      try (by destruct isMaximizing).
    - simpl. unfold Ai.heuristic.
      destruct (heuristic_fold_range boards size 0%Z) as [Hr _]. lia.
    - apply minimaxLoop_inRange; [|by destruct isMaximizing].
      intros m a b. rewrite <- (length_updateBoards boards m). apply IH. }
  split; [apply H|].
  unfold Ai.moveScore. rewrite <- (length_updateBoards boards move).
  apply H.
Qed.

Lemma heuristic_range_witness :
  Ai.heuristic [[Marked; Marked; Marked; Empty; Empty; Empty;
                 Empty; Empty; Empty]] 3 = 0%Z.
Proof.
  apply (heuristic_range [[Marked; Marked; Marked; Empty; Empty; Empty;
                           Empty; Empty; Empty]] 3).
  reflexivity.
Defined.
